(** * The semi-implicit BDF/EXT time stepper of hydrogym

    A shallow embedding of [hydrogym/firedrake/solvers/bdf_ext.py]: the
    coefficient tables, the history of previous velocities, the start-up
    solvers and [SemiImplicitBDF.step].

    Conventions of the embedding.
    - Python [float] literals are read as the rationals they denote
      ([3.0 / 2.0] is the rational 3/2); equality of coefficients is [Qeq].
    - Python [int]s are [Z]; a list index may be negative and then counts
      from the end, as in Python.
    - A Python exception is a value of [exn]; a computation that raises
      keeps the state it had reached when it raised.
    - Finite-element fields are values of an abstract type with the three
      operations the module uses on them: the [0] that [sum] starts from,
      [+] and the product with a coefficient. *)

From Stdlib Require Import ZArith QArith Qround Lia Lqa List String.
From stdpp Require Import base option list strings gmap.

Open Scope Z_scope.

(** ** Python runtime *)

Inductive exn : Type :=
| IndexError
| AttributeError (name : string)
| ValueError (msg : string)
| AssertionError (msg : string)
| LinearSolveError.

Inductive res (A : Type) : Type :=
| Ok (a : A)
| Raise (e : exn).
Arguments Ok {A} a.
Arguments Raise {A} e.

#[global] Instance res_ret : MRet res := fun A a => Ok a.
#[global] Instance res_bind : MBind res := fun A B f m =>
  match m with
  | Ok a => f a
  | Raise e => Raise e
  end.

(** [l[i]]: the position a Python index denotes in a list, if any. *)
Definition py_index {A : Type} (l : list A) (i : Z) : option nat :=
  let n := Z.of_nat (length l) in
  if 0 <=? i then (if i <? n then Some (Z.to_nat i) else None)
  else if 0 <=? n + i then Some (Z.to_nat (n + i)) else None.

(** The slot [l[i]] names; [IndexError] when [i] is out of range. *)
Definition slot {A : Type} (l : list A) (i : Z) : res nat :=
  match py_index l i with
  | Some j => Ok j
  | None => Raise IndexError
  end.

Definition getitem {A : Type} (l : list A) (i : Z) : res A :=
  j ← slot l i;
  match l !! j with
  | Some x => Ok x
  | None => Raise IndexError
  end.

(** [range(n)] *)
Definition range (n : Z) : list Z := Z.of_nat <$> seq 0 (Z.to_nat n).

(** ** Coefficient tables (bdf_ext.py, lines 8-18) *)

Definition _alpha_BDF : list Q := [1.0; 3.0 / 2.0; 11.0 / 6.0]%Q.

Definition _beta_BDF : list (list Q) :=
  [ [1.0];
    [2.0; -1.0 / 2.0];
    [3.0; -3.0 / 2.0; 1.0 / 3.0] ]%Q.

Definition _beta_EXT : list (list Q) :=
  [ [1.0];
    [2.0; -1.0];
    [3.0; -3.0; 1.0] ]%Q.

(** The three table reads of [_make_order_k_solver(k)], in the order the
    method makes them, with [k_idx = k - 1]. *)
Definition coefficients (k : Z) : res (Q * list Q * list Q) :=
  let k_idx := k - 1 in
  beta_EXT ← getitem _beta_EXT k_idx;
  beta_BDF ← getitem _beta_BDF k_idx;
  alpha_k ← getitem _alpha_BDF k_idx;
  mret (alpha_k, beta_BDF, beta_EXT).

(** Equality of coefficient rows, entry by entry. *)
Definition row_eq (r1 r2 : list Q) : Prop := Forall2 Qeq r1 r2.

Definition MAX_SUPPORTED_ORDER : Z := Z.of_nat (length _alpha_BDF).

(** ** External collaborators

    What the module imports and does not define: fields and their algebra
    (UFL), the algebraic solve (PETSc through Firedrake), the flow's
    actuators and boundary conditions, and the registry of stabilization
    schemes [ns_stabilization] of [stabilization.py]. *)

Inductive outcome (S : Type) : Type :=
| Solved (q' : S)     (* the solve returned; the solution is [q'] *)
| Failed (q' : S).    (* the solve raised, leaving [q'] in the solution *)
Arguments Solved {S} q'.
Arguments Failed {S} q'.

Class Backend : Type := {
  V : Type;                          (* velocity fields *)
  Pr : Type;                         (* pressure fields *)
  vzero : V;                         (* the [0] of [sum] *)
  vadd : V -> V -> V;
  vscale : Q -> V -> V;
  Model : Type;                      (* actuators and boundary conditions *)
  Control : Type;
  BcScale : Type;
  Stab : Type;
  init_bcs : Model -> Model;
  update_actuators : Control -> Q -> Model -> BcScale * Model;
  set_control : BcScale -> Model -> Model;
  ns_stabilization : list (string * Stab);
  (* stabilization, alpha_k, h, u_BDF, w, eta, then the flow solved for *)
  linear_solve : Stab -> Q -> Q -> V -> V -> Q -> V * Pr -> Model -> outcome (V * Pr)
}.

Section Controller.
Context `{B : Backend}.

(** A handle on a flow object; two names for one handle alias. *)
Definition loc : Type := positive.

(** The flow: its mixed solution [q = (u, p)] and the rest of the model. *)
Record flow_obj : Type := FlowObj {
  q : V * Pr;
  model : Model
}.

(** What [_make_order_k_solver] binds into the variational solver. The
    symbolic forms [w] and [u_BDF] refer to the history functions and are
    evaluated on their values at the time of each solve. *)
Record solver : Type := Solver {
  s_order : Z;
  s_alpha : Q;
  s_beta_BDF : list Q;
  s_beta_EXT : list Q;
  s_h : Q;
  s_stab : Stab;
  s_flow : loc
}.

(** The attributes of a [SemiImplicitBDF] object, and the store of flow
    objects its [flow] attribute points into. *)
Record world : Type := World {
  k : Z;
  stabilization : string;
  ksp_rtol : Q;
  StabilizationType : option Stab;
  flow : loc;
  dt : Q;
  t : Q;
  u_prev : list V;
  petsc_solver : option solver;
  startup_solvers : list solver;
  eta : Q;
  noise : list Q;
  noise_idx : Z;
  heap : gmap loc flow_obj
}.

Definition set_k (x : Z) (w : world) : world :=
  World x (stabilization w) (ksp_rtol w) (StabilizationType w) (flow w) (dt w)
        (t w) (u_prev w) (petsc_solver w) (startup_solvers w) (eta w) (noise w)
        (noise_idx w) (heap w).
Definition set_stabilization (x : string) (w : world) : world :=
  World (k w) x (ksp_rtol w) (StabilizationType w) (flow w) (dt w)
        (t w) (u_prev w) (petsc_solver w) (startup_solvers w) (eta w) (noise w)
        (noise_idx w) (heap w).
Definition set_ksp_rtol (x : Q) (w : world) : world :=
  World (k w) (stabilization w) x (StabilizationType w) (flow w) (dt w)
        (t w) (u_prev w) (petsc_solver w) (startup_solvers w) (eta w) (noise w)
        (noise_idx w) (heap w).
Definition set_StabilizationType (x : Stab) (w : world) : world :=
  World (k w) (stabilization w) (ksp_rtol w) (Some x) (flow w) (dt w)
        (t w) (u_prev w) (petsc_solver w) (startup_solvers w) (eta w) (noise w)
        (noise_idx w) (heap w).
Definition set_flow (x : loc) (w : world) : world :=
  World (k w) (stabilization w) (ksp_rtol w) (StabilizationType w) x (dt w)
        (t w) (u_prev w) (petsc_solver w) (startup_solvers w) (eta w) (noise w)
        (noise_idx w) (heap w).
Definition set_dt (x : Q) (w : world) : world :=
  World (k w) (stabilization w) (ksp_rtol w) (StabilizationType w) (flow w) x
        (t w) (u_prev w) (petsc_solver w) (startup_solvers w) (eta w) (noise w)
        (noise_idx w) (heap w).
Definition set_t (x : Q) (w : world) : world :=
  World (k w) (stabilization w) (ksp_rtol w) (StabilizationType w) (flow w) (dt w)
        x (u_prev w) (petsc_solver w) (startup_solvers w) (eta w) (noise w)
        (noise_idx w) (heap w).
Definition set_u_prev (x : list V) (w : world) : world :=
  World (k w) (stabilization w) (ksp_rtol w) (StabilizationType w) (flow w) (dt w)
        (t w) x (petsc_solver w) (startup_solvers w) (eta w) (noise w)
        (noise_idx w) (heap w).
Definition set_petsc_solver (x : solver) (w : world) : world :=
  World (k w) (stabilization w) (ksp_rtol w) (StabilizationType w) (flow w) (dt w)
        (t w) (u_prev w) (Some x) (startup_solvers w) (eta w) (noise w)
        (noise_idx w) (heap w).
Definition set_startup_solvers (x : list solver) (w : world) : world :=
  World (k w) (stabilization w) (ksp_rtol w) (StabilizationType w) (flow w) (dt w)
        (t w) (u_prev w) (petsc_solver w) x (eta w) (noise w)
        (noise_idx w) (heap w).
Definition set_eta (x : Q) (w : world) : world :=
  World (k w) (stabilization w) (ksp_rtol w) (StabilizationType w) (flow w) (dt w)
        (t w) (u_prev w) (petsc_solver w) (startup_solvers w) x (noise w)
        (noise_idx w) (heap w).
Definition set_noise (x : list Q) (w : world) : world :=
  World (k w) (stabilization w) (ksp_rtol w) (StabilizationType w) (flow w) (dt w)
        (t w) (u_prev w) (petsc_solver w) (startup_solvers w) (eta w) x
        (noise_idx w) (heap w).
Definition set_noise_idx (x : Z) (w : world) : world :=
  World (k w) (stabilization w) (ksp_rtol w) (StabilizationType w) (flow w) (dt w)
        (t w) (u_prev w) (petsc_solver w) (startup_solvers w) (eta w) (noise w)
        x (heap w).
Definition set_heap (x : gmap loc flow_obj) (w : world) : world :=
  World (k w) (stabilization w) (ksp_rtol w) (StabilizationType w) (flow w) (dt w)
        (t w) (u_prev w) (petsc_solver w) (startup_solvers w) (eta w) (noise w)
        (noise_idx w) x.

(** ** Statements: state and exceptions *)

Definition M (A : Type) : Type := world -> res A * world.

#[global] Instance M_ret : MRet M := fun A a w => (Ok a, w).
#[global] Instance M_bind : MBind M := fun A B f m w =>
  match m w with
  | (Ok a, w') => f a w'
  | (Raise e, w') => (Raise e, w')
  end.

Definition get : M world := fun w => (Ok w, w).
Definition modify (f : world -> world) : M unit := fun w => (Ok tt, f w).
Definition raise {A : Type} (e : exn) : M A := fun w => (Raise e, w).
Definition lift {A : Type} (r : res A) : M A := fun w => (r, w).

(** Reading an attribute that may not have been assigned yet. *)
Definition attr {A : Type} (name : string) (o : option A) : M A :=
  match o with
  | Some x => mret x
  | None => raise (AttributeError name)
  end.

(** Following a handle into the store. Python keeps every referenced
    object alive, so the second case is never taken from a store in which
    the controller's flow exists. *)
Definition deref (l : loc) : M flow_obj := fun w =>
  match heap w !! l with
  | Some fl => (Ok fl, w)
  | None => (Raise (AttributeError "flow"), w)
  end.

Definition update_flow (l : loc) (fl : flow_obj) : M unit :=
  modify (fun w => set_heap (<[l := fl]> (heap w)) w).

(** [for x in xs: body(x)] *)
Fixpoint for_each {A : Type} (xs : list A) (body : A -> M unit) : M unit :=
  match xs with
  | [] => mret tt
  | x :: xs' => body x ;; for_each xs' body
  end.

(** ** History of previous velocities *)

(** [sum(xs)]: Python starts from [0] and adds from the left. *)
Definition py_sum (xs : list V) : V := foldl vadd vzero xs.

(** [sum(beta * u_n for beta, u_n in zip(betas, u_prev))] *)
Definition lincomb (betas : list Q) (us : list V) : V :=
  py_sum ((fun '(beta, u_n) => vscale beta u_n) <$> zip betas us).

(** The wind [w] and the estimate [u_BDF] that [_make_order_k_solver(o)]
    forms (lines 74-77), on the history values [us]. *)
Definition wind (o : Z) (us : list V) : res V :=
  betas ← getitem _beta_EXT (o - 1);
  mret (lincomb betas us).



(** Lines 57-63 on values: [n] new functions, each then assigned [x]. *)
Definition seed (n : Z) (x : V) : list V :=
  let q_prev := (fun _ => vzero) <$> range n in
  (fun _ => x) <$> q_prev.

Definition initialize_functions : M unit :=
  w ← get;
  fl ← deref (flow w);
  modify (set_u_prev (seed (k w) (fst (q fl)))).

(** Lines 174-178: the history moves one slot towards the oldest and the
    velocity just solved for becomes the newest. [shift_slot i] is the
    body [self.u_prev[-(i + 1)].assign(self.u_prev[-(i + 2)])]. *)
Definition shift_slot (i : Z) : M unit :=
  w ← get;
  dst ← lift (slot (u_prev w) (- (i + 1)));
  src ← lift (getitem (u_prev w) (- (i + 2)));
  modify (set_u_prev (<[dst := src]> (u_prev w))).

Definition rotate_history : M unit :=
  w ← get;
  for_each (range (k w - 1)) shift_slot;;
  w ← get;
  dst ← lift (slot (u_prev w) 0);
  fl ← deref (flow w);
  modify (set_u_prev (<[dst := fst (q fl)]> (u_prev w))).

(** ** Sub-solvers *)

(** Lines 65-147. The solver parameters do not depend on the order. *)
Definition _make_order_k_solver (o : Z) : M solver :=
  w ← get;
  '(alpha_k, beta_BDF, beta_EXT) ← lift (coefficients o);
  stab ← attr "StabilizationType" (StabilizationType w);
  mret (Solver o alpha_k beta_BDF beta_EXT (dt w) stab (flow w)).

(** Lines 149-157. [add_startup_solver i] is the body
    [self.startup_solvers.append(self._make_order_k_solver(i + 1))]. *)
Definition add_startup_solver (i : Z) : M unit :=
  s ← _make_order_k_solver (i + 1);
  modify (fun w => set_startup_solvers (startup_solvers w ++ [s]) w).

Definition initialize_operators : M unit :=
  w ← get;
  fl ← deref (flow w);
  update_flow (flow w) (FlowObj (q fl) (init_bcs (model fl)));;
  ps ← _make_order_k_solver (k w);
  modify (set_petsc_solver ps);;
  modify (set_startup_solvers []);;
  if k w >? 1 then for_each (range (k w - 1)) add_startup_solver
  else mret tt.

(** The call a solver makes to the backend: the forms are evaluated on
    the history and the forcing amplitude of the moment. *)
Definition delegated (s : solver) (w : world) (fl : flow_obj) : outcome (V * Pr) :=
  linear_solve (s_stab s) (s_alpha s) (s_h s)
    (lincomb (s_beta_BDF s) (u_prev w))
    (lincomb (s_beta_EXT s) (u_prev w))
    (eta w) (q fl) (model fl).

(** [solver.solve()]: the delegated solve writes the flow's solution. *)
Definition solve (s : solver) : M unit :=
  w ← get;
  fl ← deref (s_flow s);
  match delegated s w fl with
  | Solved q' => update_flow (s_flow s) (FlowObj q' (model fl))
  | Failed q' =>
      update_flow (s_flow s) (FlowObj q' (model fl));;
      raise LinearSolveError
  end.

(** Lines 169-172: the solver a step with index [iter] uses. *)
Definition select_solver (iter : Z) : M solver :=
  w ← get;
  if iter >? k w - 1 then attr "petsc_solver" (petsc_solver w)
  else lift (getitem (startup_solvers w) (iter - 1)).

(** Lines 160-166: the noise sample of this step becomes the forcing
    amplitude, and a control input goes through the actuators. *)
Definition force_and_actuate (control : option Control) : M unit :=
  w ← get;
  x ← lift (getitem (noise w) (noise_idx w));
  modify (set_eta x);;
  match control with
  | Some c =>
      fl ← deref (flow w);
      let '(bc_scale, m) := update_actuators c (dt w) (model fl) in
      update_flow (flow w) (FlowObj (q fl) (set_control bc_scale m))
  | None => mret tt
  end.

(** Lines 180-182. *)
Definition advance : M unit :=
  modify (fun w => set_t (t w + dt w)%Q w);;
  modify (fun w => set_noise_idx (noise_idx w + 1) w);;
  w ← get;
  if noise_idx w <? Z.of_nat (length (noise w)) then mret tt
  else raise (AssertionError "Not enough noise samples generated").

(** ** The step (lines 159-184) *)
Definition step (iter : Z) (control : option Control) : M loc :=
  force_and_actuate control;;
  s ← select_solver iter;
  solve s;;
  rotate_history;;
  advance;;
  w ← get;
  mret (flow w).

(** ** Construction (lines 22-43) *)

Fixpoint dict_get {A : Type} (d : list (string * A)) (key : string) : option A :=
  match d with
  | [] => None
  | (key', x) :: d' => if String.eqb key' key then Some x else dict_get d' key
  end.

Definition keys {A : Type} (d : list (string * A)) : list string := fst <$> d.

(** [repr] of a string without quotes or escapes, and of [d.keys()]. *)
Definition repr_str (s : string) : string := "'" +:+ s +:+ "'".

Fixpoint join (sep : string) (xs : list string) : string :=
  match xs with
  | [] => ""
  | [x] => x
  | x :: xs' => x +:+ sep +:+ join sep xs'
  end.

Definition repr_keys {A : Type} (d : list (string * A)) : string :=
  "dict_keys([" +:+ join ", " (repr_str <$> keys d) +:+ "])".

Definition not_recognized (name : string) : string :=
  "Stabilization type " +:+ name +:+ " not recognized. "
  +:+ "Available options: " +:+ repr_keys ns_stabilization.

(** Modelled from the spec: the base class [NavierStokesTransientSolver]
    ([base.py]) is not among the sources. Its constructor keeps the flow,
    the step size and the noise generated for the run; its [reset] puts
    the clock and the noise cursor at their start and then calls
    [initialize_functions] and [initialize_operators]. *)
Definition base_init (fl : loc) (h : Q) (samples : list Q) : M unit :=
  modify (set_flow fl);;
  modify (set_dt h);;
  modify (set_noise samples).

Definition reset : M unit :=
  modify (set_t 0%Q);;
  modify (set_noise_idx 0);;
  initialize_functions;;
  initialize_operators.

Definition __init__ (fl : loc) (h : Q) (order : Z) (name : string)
    (rtol : Q) (samples : list Q) : M unit :=
  modify (set_k order);;
  modify (set_stabilization name);;
  modify (set_ksp_rtol rtol);;
  match dict_get ns_stabilization name with
  | None => raise (ValueError (not_recognized name))
  | Some st => modify (set_StabilizationType st)
  end;;
  base_init fl h samples;;
  reset.

(** Modelled from the spec: the loop that drives the steps lives in
    [base.py]; like [IPCSSolver.solve] of [ts.py] it calls
    [step(iter)] for [iter] in [range(num_steps)], and stops at the first
    exception. *)
Definition run (num_steps : Z) (controller : Z -> option Control) : M unit :=
  for_each (range num_steps) (fun iter =>
    step iter (controller iter);; mret tt).

(** ** Vocabulary of the properties *)

(** The order of the solver a step with index [iter] uses. *)
Definition selected_order (iter : Z) (w : world) : res Z :=
  match fst (select_solver iter w) with
  | Ok s => Ok (s_order s)
  | Raise e => Raise e
  end.

(** The start-up policy in the words of the specification: step indices
    [0 .. k-2] use order [step_index + 1], later ones order [k]. *)
Definition startup_policy (order n : Z) : Z :=
  if n <=? order - 2 then n + 1 else order.

(** The sum of [term 0], ..., [term (n-1)], added from the left. *)
Fixpoint sigma (n : nat) (term : nat -> V) : V :=
  match n with
  | O => vzero
  | S m => vadd (sigma m term) (term m)
  end.

(** [beta_EXT[i]] of order [o], and the extrapolation in the words of the
    specification: the sum of [beta_EXT[i] * history[i]] over the first
    [o] entries. *)
Definition beta_EXT (o : Z) (i : nat) : Q :=
  nth i (nth (Z.to_nat (o - 1)) _beta_EXT []) 0%Q.

Definition wind_sum (o : Z) (history : list V) : V :=
  sigma (Z.to_nat o) (fun i => vscale (beta_EXT o i) (nth i history vzero)).

(** The solver [_make_order_k_solver(o)] returns for this controller. *)
Definition solver_of (w : world) (o : Z) (s : solver) : Prop :=
  s_order s = o /\ s_flow s = flow w /\ s_h s = dt w /\
  StabilizationType w = Some (s_stab s) /\
  coefficients o = Ok (s_alpha s, s_beta_BDF s, s_beta_EXT s).

(** A controller between two steps: what construction establishes and
    every step keeps. *)
Record ready (w : world) : Prop := Ready {
  ready_order : 1 <= k w <= 3;
  ready_history : length (u_prev w) = Z.to_nat (k w);
  ready_flow : is_Some (heap w !! flow w);
  ready_petsc : exists ps, petsc_solver w = Some ps /\ solver_of w (k w) ps;
  ready_startup_length : length (startup_solvers w) = Z.to_nat (k w - 1);
  ready_startup : forall (i : nat) s,
    startup_solvers w !! i = Some s -> solver_of w (Z.of_nat i + 1) s;
  ready_cursor : 0 <= noise_idx w
}.

(** The state after lines 160-166, when the sample read is [x]. *)
Definition actuate (control : option Control) (w : world) : gmap loc flow_obj :=
  match control, heap w !! flow w with
  | Some c, Some fl =>
      let '(bc_scale, m) := update_actuators c (dt w) (model fl) in
      <[flow w := FlowObj (q fl) (set_control bc_scale m)]> (heap w)
  | _, _ => heap w
  end.

Definition forced (control : option Control) (x : Q) (w : world) : world :=
  set_heap (actuate control w) (set_eta x w).

(** The state after a solve that left [q'] in the solution of [fl]. *)
Definition solved (s : solver) (q' : V * Pr) (fl : flow_obj) (w : world) : world :=
  set_heap (<[s_flow s := FlowObj q' (model fl)]> (heap w)) w.

(** The state after lines 174-181, [y] being the velocity solved for. *)
Definition commit (y : V) (w : world) : world :=
  set_noise_idx (noise_idx w + 1)
    (set_t (t w + dt w)%Q
      (set_u_prev (y :: removelast (u_prev w)) w)).

Definition out_of_noise : exn :=
  AssertionError "Not enough noise samples generated".

(** The ways a step of a ready controller ends, with the result and the
    state it ends in. *)
Inductive step_outcome (iter : Z) (control : option Control) (w : world)
    : res loc -> world -> Prop :=
| step_no_sample :
    getitem (noise w) (noise_idx w) = Raise IndexError ->
    step_outcome iter control w (Raise IndexError) w
| step_no_solver x :
    getitem (noise w) (noise_idx w) = Ok x ->
    fst (select_solver iter (forced control x w)) = Raise IndexError ->
    step_outcome iter control w (Raise IndexError) (forced control x w)
| step_solve_failed x s fl q' :
    getitem (noise w) (noise_idx w) = Ok x ->
    fst (select_solver iter (forced control x w)) = Ok s ->
    s_flow s = flow w ->
    heap (forced control x w) !! flow w = Some fl ->
    delegated s (forced control x w) fl = Failed q' ->
    step_outcome iter control w (Raise LinearSolveError)
      (solved s q' fl (forced control x w))
| step_done x s fl q' :
    getitem (noise w) (noise_idx w) = Ok x ->
    fst (select_solver iter (forced control x w)) = Ok s ->
    s_flow s = flow w ->
    heap (forced control x w) !! flow w = Some fl ->
    delegated s (forced control x w) fl = Solved q' ->
    noise_idx w + 1 < Z.of_nat (length (noise w)) ->
    step_outcome iter control w (Ok (flow w))
      (commit (fst q') (solved s q' fl (forced control x w)))
| step_out_of_noise x s fl q' :
    getitem (noise w) (noise_idx w) = Ok x ->
    fst (select_solver iter (forced control x w)) = Ok s ->
    s_flow s = flow w ->
    heap (forced control x w) !! flow w = Some fl ->
    delegated s (forced control x w) fl = Solved q' ->
    Z.of_nat (length (noise w)) <= noise_idx w + 1 ->
    step_outcome iter control w (Raise out_of_noise)
      (commit (fst q') (solved s q' fl (forced control x w))).

(** The exceptions a statement can raise. *)
Definition raises_only (P : exn -> Prop) {A : Type} (m : M A) : Prop :=
  forall w e w', m w = (Raise e, w') -> P e.

Definition not_value_error (e : exn) : Prop := forall msg, e <> ValueError msg.

(** The delegated solve never raises. *)
Definition solve_never_fails : Prop :=
  forall st a h u_BDF w e q0 m, exists q',
    linear_solve st a h u_BDF w e q0 m = Solved q'.

End Controller.

Definition is_coefficients (r : res (Q * list Q * list Q))
    (alpha : Q) (beta_BDF beta_EXT : list Q) : Prop :=
  match r with
  | Ok (a, b, e) => a == alpha /\ row_eq b beta_BDF /\ row_eq e beta_EXT
  | Raise _ => False
  end.

(** [s] occurs in [msg]. *)
Definition occurs (s msg : string) : Prop :=
  exists pre post, msg = pre +:+ s +:+ post.

(** ** A scalar backend to run the controller on

    One degree of freedom: fields are rationals. The model holds the
    actuator state and the boundary-condition scale; the actuator adds
    [control * dt] to its state. The solve of [alpha * u - u_BDF = h * eta]
    raises exactly when [fails] holds of the forcing amplitude. *)
Module Bench.

Definition scalar (fails : Q -> bool) : Backend := {|
  V := Q;
  Pr := unit;
  vzero := 0%Q;
  vadd := Qplus;
  vscale := Qmult;
  Model := Q * Q;
  Control := Q;
  BcScale := Q;
  Stab := nat;
  init_bcs := fun m => m;
  update_actuators := fun c h m => ((fst m + c * h)%Q, ((fst m + c * h)%Q, snd m));
  set_control := fun bc m => (fst m, bc);
  ns_stabilization := [("none", 0%nat); ("supg", 1%nat); ("gls", 2%nat)];
  linear_solve := fun _ alpha h u_BDF _ e q0 _ =>
    if fails e then Failed q0
    else Solved (Qred ((u_BDF + h * e) / alpha), tt)
|}.

Definition never : Q -> bool := fun _ => false.
Definition negative : Q -> bool := fun e => Qle_bool e (-1).

Definition the_flow : loc := 1%positive.

(** A new object, before [__init__] has run, next to a flow at rest. *)
Definition blank (fails : Q -> bool) : @world (scalar fails) :=
  @World (scalar fails) 0 "" 0%Q None the_flow 0%Q 0%Q [] None [] 0%Q [] 0
    {[ the_flow := @FlowObj (scalar fails) (1%Q, tt) (0%Q, 0%Q) ]}.

(** [SemiImplicitBDF(flow, dt=1/100, order, "none")] over [samples]. *)
Definition controller (fails : Q -> bool) (order : Z) (samples : list Q)
    : @world (scalar fails) :=
  snd (@__init__ (scalar fails) the_flow (1 # 100)%Q order "none" (1 # 1000000)%Q
         samples (blank fails)).

Definition no_control (fails : Q -> bool) : Z -> option (@Control (scalar fails)) :=
  fun _ => None.

End Bench.

(** ** Polynomial histories

    The values a polynomial takes at the times [t], [t - h], [t - 2h] of
    the history, most recent first, on the scalar backend. *)

(** [cs = [c0; c1; ...]] stands for [c0 + c1 * s + ...]. *)
Fixpoint poly (cs : list Q) (s : Q) : Q :=
  match cs with
  | [] => 0
  | c :: cs' => c + s * poly cs' s
  end%Q.



Definition sampled (cs : list Q) (t h : Q) : list Q :=
  [poly cs t; poly cs (t - h); poly cs (t - 2 * h)]%Q.

(** ** The cylinder flow (flow/flows.py, flow/mesh/cylinder/mesh.py) *)

Module Cylinder.

(** Boundary markers of the mesh. *)
Definition FLUID : Z := 1.
Definition INLET : Z := 2.
Definition FREESTREAM : Z := 3.
Definition OUTLET : Z := 4.
Definition CYLINDER : Z := 5.

(** [min(a, b)] and [max(a, b)] of Python return [a] unless [b] is
    strictly smaller, respectively strictly larger. *)
Definition py_min (a b : Q) : Q := if Qle_bool a b then a else b.
Definition py_max (a b : Q) : Q := if Qle_bool b a then a else b.

(** [Cylinder.clamp]; [MAX_CONTROL] is [0.5 * np.pi]. *)
Definition clamp (MAX_CONTROL u : Q) : Q :=
  py_max (- MAX_CONTROL) (py_min MAX_CONTROL u).

(** The function spaces [Flow.function_spaces] hands out. *)
Inductive space : Type :=
| velocity_space
| pressure_space
| mixed_space_sub (i : nat).

Definition function_spaces (mixed : bool) : space * space :=
  if mixed then (mixed_space_sub 0, mixed_space_sub 1)
  else (velocity_space, pressure_space).

Section Flow.
(** [fd.project(self.u_tan, V)] when the rotation rate is [omega]: the
    tangential velocity [omega * rad * (sin theta, cos theta)] in [V]. *)
Context {Field : Type} (project_u_tan : Q -> space -> Field).

Inductive bc_value : Type :=
| U_inf
| zero_pressure
| projected (f : Field).

Record bc : Type := DirichletBC {
  bc_space : space;
  bc_arg : bc_value;
  bc_marker : Z
}.

(** The attributes of a [Cylinder] the control acts on; a boundary
    condition is [None] until [init_bcs] has created it. *)
Record cylinder : Type := CylinderFlow {
  rotation_rate : Q;
  bcu_inflow : option bc;
  bcu_freestream : option bc;
  bcu_cylinder : option bc;
  bcp_outflow : option bc
}.

(** After [Cylinder.__init__]. *)
Definition new_cylinder : cylinder := CylinderFlow 0 None None None None.

Definition init_bcs (mixed : bool) (c : cylinder) : cylinder :=
  let '(V, Q) := function_spaces mixed in
  CylinderFlow (rotation_rate c)
    (Some (DirichletBC V U_inf INLET))
    (Some (DirichletBC V U_inf FREESTREAM))
    (Some (DirichletBC V (projected (project_u_tan (rotation_rate c) V)) CYLINDER))
    (Some (DirichletBC Q zero_pressure OUTLET)).

Definition update_control (omega : Q) (c : cylinder) : cylinder :=
  let c := CylinderFlow omega (bcu_inflow c) (bcu_freestream c) (bcu_cylinder c)
             (bcp_outflow c) in
  match bcu_cylinder c with
  | Some b =>
      CylinderFlow (rotation_rate c) (bcu_inflow c) (bcu_freestream c)
        (Some (DirichletBC (bc_space b)
                 (projected (project_u_tan (rotation_rate c) velocity_space))
                 (bc_marker b)))
        (bcp_outflow c)
  | None => c
  end.

Definition reset_control (c : cylinder) : cylinder := update_control 0.0 c.

Definition collect_bcu (c : cylinder) : res (list bc) :=
  match bcu_inflow c, bcu_freestream c, bcu_cylinder c with
  | None, _, _ => Raise (AttributeError "bcu_inflow")
  | Some _, None, _ => Raise (AttributeError "bcu_freestream")
  | Some _, Some _, None => Raise (AttributeError "bcu_cylinder")
  | Some b1, Some b2, Some b3 => Ok [b1; b2; b3]
  end.

Definition collect_bcp (c : cylinder) : res (list bc) :=
  match bcp_outflow c with
  | None => Raise (AttributeError "bcp_outflow")
  | Some b => Ok [b]
  end.

(** [Flow.collect_bcs] *)
Definition collect_bcs (c : cylinder) : res (list bc) :=
  bcu ← collect_bcu c;
  bcp ← collect_bcp c;
  mret (bcu ++ bcp).

(** What holds of a flow between two calls: either no boundary condition
    exists yet, or all four do, on their markers, and the one on the
    cylinder holds the tangential velocity of the current rotation
    rate. *)
Definition controlled (c : cylinder) : Prop :=
  (bcu_inflow c = None /\ bcu_freestream c = None /\
   bcu_cylinder c = None /\ bcp_outflow c = None) \/
  (exists V Q V',
     bcu_inflow c = Some (DirichletBC V U_inf INLET) /\
     bcu_freestream c = Some (DirichletBC V U_inf FREESTREAM) /\
     bcu_cylinder c =
       Some (DirichletBC V (projected (project_u_tan (rotation_rate c) V')) CYLINDER) /\
     bcp_outflow c = Some (DirichletBC Q zero_pressure OUTLET)).

(** The calls a user makes on the control of a flow. *)
Inductive call : Type :=
| call_init_bcs (mixed : bool)
| call_update_control (omega : Q)
| call_reset_control.

Definition perform (c : cylinder) (op : call) : cylinder :=
  match op with
  | call_init_bcs mixed => init_bcs mixed c
  | call_update_control omega => update_control omega c
  | call_reset_control => reset_control c
  end.

Definition is_init_bcs (op : call) : bool :=
  match op with
  | call_init_bcs _ => true
  | _ => false
  end.

End Flow.
End Cylinder.

(** ** The incremental pressure correction solver (ts.py) *)

Module IPCS.

Inductive error : Type :=
| ZeroDivisionError
| ConvergenceError.

(** The three linear solves of a step. Each leaves a value in the vector
    it solves for and either returns ([true]) or raises ([false]).
    [Bcs] is what [flow.collect_bcu()] returns, a list of the flow's
    boundary-condition objects; [BcValues] is what those objects hold at a
    given moment, which the control of the flow changes in place. *)
Class Solves : Type := {
  U : Type;
  P : Type;
  Bcs : Type;
  BcValues : Type;
  Mat : Type;
  (* fd.assemble(self.a1, bcs=bcu) *)
  assemble_A1 : Bcs -> BcValues -> Mat;
  (* step 1, from A1, bcu and its values, u_n, p_n and the velocity in place *)
  tentative_velocity : Mat -> Bcs -> BcValues -> U -> P -> U -> U * bool;
  (* step 2, from the velocity, p_n and the pressure in place *)
  pressure_correction : U -> P -> P -> P * bool;
  (* step 3, from the velocity, the pressure and p_n *)
  velocity_correction : U -> P -> P -> U * bool
}.

Section Solver.
Context `{S : Solves} {Callback : Type}.

(** One call [cb(iter, t, (u, p))]. *)
Record event : Type := Called {
  ev_callback : Callback;
  ev_iter : Z;
  ev_t : Q;
  ev_u : U;
  ev_p : P
}.

(** An [IPCSSolver], the solution [(u, p)] of its flow, the velocity
    boundary conditions its flow would collect now, the values the
    boundary-condition objects hold now, and the calls made to the
    callbacks so far. *)
Record solver : Type := IPCSSolver {
  dt : Q;
  t : Q;
  callbacks : list Callback;
  time_varying_bc : bool;
  bcu : Bcs;
  A1 : Mat;
  u : U;
  p : P;
  u_n : U;
  p_n : P;
  flow_bcu : Bcs;
  bc_values : BcValues;
  calls : list event
}.

(** [__init__] and [initialize_operators] on a flow whose boundary
    conditions are in place. *)
Definition init (flow_u : U) (flow_p : P) (flow_bcs : Bcs) (values : BcValues)
    (h : Q) (cbs : list Callback) (varying : bool) : solver :=
  IPCSSolver h 0 cbs varying flow_bcs (assemble_A1 flow_bcs values)
    flow_u flow_p flow_u flow_p flow_bcs values [].

Definition step (iter : Z) (s : solver) : option error * solver :=
  (* self.t += self.dt *)
  let t' := (t s + dt s)%Q in
  (* Step 1 *)
  let bcu' := if time_varying_bc s then flow_bcu s else bcu s in
  let A1' := if time_varying_bc s then assemble_A1 bcu' (bc_values s)
             else A1 s in
  let '(u1, ok1) :=
    tentative_velocity A1' bcu' (bc_values s) (u_n s) (p_n s) (u s) in
  if negb ok1 then
    (Some ConvergenceError,
     IPCSSolver (dt s) t' (callbacks s) (time_varying_bc s) bcu' A1'
       u1 (p s) (u_n s) (p_n s) (flow_bcu s) (bc_values s) (calls s))
  else
  (* Step 2 *)
  let '(p2, ok2) := pressure_correction u1 (p_n s) (p s) in
  if negb ok2 then
    (Some ConvergenceError,
     IPCSSolver (dt s) t' (callbacks s) (time_varying_bc s) bcu' A1'
       u1 p2 (u_n s) (p_n s) (flow_bcu s) (bc_values s) (calls s))
  else
  (* Step 3 *)
  let '(u3, ok3) := velocity_correction u1 p2 (p_n s) in
  if negb ok3 then
    (Some ConvergenceError,
     IPCSSolver (dt s) t' (callbacks s) (time_varying_bc s) bcu' A1'
       u3 p2 (u_n s) (p_n s) (flow_bcu s) (bc_values s) (calls s))
  else
  (* Update previous solution, then the callbacks *)
  (None,
   IPCSSolver (dt s) t' (callbacks s) (time_varying_bc s) bcu' A1'
     u3 p2 u3 p2 (flow_bcu s) (bc_values s)
     (calls s ++ ((fun cb => Called cb iter t' u3 p2) <$> callbacks s))).

(** [for iter in iters: self.step(iter)] *)
Fixpoint steps (iters : list Z) (s : solver) : option error * solver :=
  match iters with
  | [] => (None, s)
  | iter :: iters' =>
      match step iter s with
      | (None, s') => steps iters' s'
      | (Some e, s') => (Some e, s')
      end
  end.

Definition set_t (x : Q) (s : solver) : solver :=
  IPCSSolver (dt s) x (callbacks s) (time_varying_bc s) (bcu s) (A1 s)
    (u s) (p s) (u_n s) (p_n s) (flow_bcu s) (bc_values s) (calls s).

(** [Tf // self.dt] on the numbers the floats denote. *)
Definition floordiv (a b : Q) : option Z :=
  if Qeq_bool b 0 then None else Some (Qfloor (a / b)).

Definition solve (Tf : Q) (s : solver) : option error * solver :=
  match floordiv Tf (dt s) with
  | None => (Some ZeroDivisionError, s)
  | Some num_steps => steps (range num_steps) (set_t 0 s)
  end.


End Solver.
End IPCS.

(** ** A scalar instance of the three solves

    Velocities, pressures, boundary-condition values and matrices are
    rationals, boundary-condition objects are numbered; the tentative
    velocity solve raises exactly when [fails] holds of the values of the
    boundary conditions. Callbacks are numbered. *)
Module IPCSBench.

Definition scalar (fails : Q -> bool) : IPCS.Solves := {|
  IPCS.U := Q;
  IPCS.P := Q;
  IPCS.Bcs := nat;
  IPCS.BcValues := Q;
  IPCS.Mat := Q;
  IPCS.assemble_A1 := fun b v => (inject_Z (Z.of_nat b) + 2 * v)%Q;
  IPCS.tentative_velocity := fun a b v un pn u0 => ((un + a)%Q, negb (fails v));
  IPCS.pressure_correction := fun u0 pn p0 => ((pn + u0)%Q, true);
  IPCS.velocity_correction := fun u0 p0 pn => ((u0 - p0 + pn)%Q, true)
|}.

Definition never : Q -> bool := fun _ => false.
Definition negative : Q -> bool := fun b => Qle_bool b (-1).

(** [IPCSSolver(flow, dt, callbacks=[0, 1], time_varying_bc=varying)] on a
    flow at rest whose boundary conditions are the objects [1] with the
    values [values]; afterwards [init_bcs] has replaced the objects by
    [2]. *)
Definition solver (fails : Q -> bool) (h values : Q) (varying : bool)
    : @IPCS.solver (scalar fails) nat :=
  let s := @IPCS.init (scalar fails) nat 0%Q 0%Q 1%nat values h
             [0%nat; 1%nat] varying in
  @IPCS.IPCSSolver (scalar fails) nat (IPCS.dt s) (IPCS.t s) (IPCS.callbacks s)
    (IPCS.time_varying_bc s) (IPCS.bcu s) (IPCS.A1 s) (IPCS.u s) (IPCS.p s)
    (IPCS.u_n s) (IPCS.p_n s) 2%nat (IPCS.bc_values s) (IPCS.calls s).

End IPCSBench.

(** * Properties *)

Section Runtime.
Context {A : Type}.
Implicit Types (l : list A) (i : Z).

Lemma py_index_nonneg l i :
  0 <= i < Z.of_nat (length l) -> py_index l i = Some (Z.to_nat i).
Proof.
  intros [H0 H1]. unfold py_index.
  destruct (Z.leb_spec 0 i); [|lia].
  destruct (Z.ltb_spec i (Z.of_nat (length l))); [done|lia].
Qed.

Lemma py_index_negative l i :
  - Z.of_nat (length l) <= i < 0 ->
  py_index l i = Some (Z.to_nat (Z.of_nat (length l) + i)).
Proof.
  intros [H0 H1]. unfold py_index.
  destruct (Z.leb_spec 0 i); [lia|].
  destruct (Z.leb_spec 0 (Z.of_nat (length l) + i)); [done|lia].
Qed.

Lemma py_index_out l i :
  i < - Z.of_nat (length l) \/ Z.of_nat (length l) <= i -> py_index l i = None.
Proof.
  intros H. unfold py_index.
  destruct (Z.leb_spec 0 i).
  - destruct (Z.ltb_spec i (Z.of_nat (length l))); [lia|done].
  - destruct (Z.leb_spec 0 (Z.of_nat (length l) + i)); [lia|done].
Qed.

Lemma py_index_lt l i j : py_index l i = Some j -> (j < length l)%nat.
Proof.
  unfold py_index.
  destruct (Z.leb_spec 0 i).
  - destruct (Z.ltb_spec i (Z.of_nat (length l))); [|done].
    intros [= <-]. lia.
  - destruct (Z.leb_spec 0 (Z.of_nat (length l) + i)); [|done].
    intros [= <-]. lia.
Qed.

Lemma getitem_nonneg l i x :
  0 <= i -> l !! Z.to_nat i = Some x -> getitem l i = Ok x.
Proof.
  intros Hi Hx. pose proof (lookup_lt_Some _ _ _ Hx) as Hlt.
  unfold getitem, slot. rewrite py_index_nonneg by lia. simpl. by rewrite Hx.
Qed.

Lemma getitem_negative l i x :
  - Z.of_nat (length l) <= i < 0 ->
  l !! Z.to_nat (Z.of_nat (length l) + i) = Some x -> getitem l i = Ok x.
Proof.
  intros Hi Hx. unfold getitem, slot. rewrite py_index_negative by lia.
  simpl. by rewrite Hx.
Qed.

Lemma getitem_out l i :
  i < - Z.of_nat (length l) \/ Z.of_nat (length l) <= i ->
  getitem l i = Raise IndexError.
Proof. intros H. unfold getitem, slot. by rewrite py_index_out. Qed.

End Runtime.

(** ** Coefficient tables *)

Section Coefficients.
Context `{B : Backend}.

Lemma coefficients_unchanged_world o (w : world) :
  snd (_make_order_k_solver o w) = w.
Proof.
  unfold _make_order_k_solver, mbind, M_bind, get, lift, attr, raise, mret, M_ret.
  destruct (coefficients o) as [[[a b] e]|err]; [|done].
  by destruct (StabilizationType w).
Qed.

Lemma make_solver_coefficients o (w : world) s w' :
  _make_order_k_solver o w = (Ok s, w') ->
  w' = w /\ solver_of w o s.
Proof.
  unfold _make_order_k_solver, mbind, M_bind, get, lift, attr, raise, mret, M_ret.
  destruct (coefficients o) as [[[a b] e]|err] eqn:Hc; [|done].
  destruct (StabilizationType w) as [st|] eqn:Hst; [|done].
  intros [= <- <-]. by repeat split.
Qed.

Lemma make_solver_ok o (w : world) st c :
  StabilizationType w = Some st -> coefficients o = Ok c ->
  _make_order_k_solver o w =
    (Ok (Solver o (fst (fst c)) (snd (fst c)) (snd c) (dt w) st (flow w)), w).
Proof.
  intros Hst Hc.
  unfold _make_order_k_solver, mbind, M_bind, get, lift, attr, raise, mret, M_ret.
  rewrite Hc, Hst. by destruct c as [[a b] e].
Qed.

End Coefficients.

(** C4. The tables hold the canonical BDF/EXT coefficients of orders 1, 2
    and 3: alpha = 1, 3/2, 11/6; beta_BDF = [1], [2, -1/2], [3, -3/2, 1/3];
    beta_EXT = [1], [2, -1], [3, -3, 1]. They are constants of the module:
    the lookup takes no state, and a solver built in any state of any
    controller carries the row of its order. *)
Theorem coefficient_tables_canonical :
  is_coefficients (coefficients 1) 1.0 [1.0]%Q [1.0]%Q /\
  is_coefficients (coefficients 2) 1.5 [2.0; -0.5]%Q [2.0; -1.0]%Q /\
  is_coefficients (coefficients 3) (11 / 6) [3.0; -1.5; 1 / 3]%Q [3.0; -3.0; 1.0]%Q /\
  Forall2 Qeq _alpha_BDF [1.0; 1.5; 11 / 6]%Q /\
  Forall2 row_eq _beta_BDF [[1.0]; [2.0; -0.5]; [3.0; -1.5; 1 / 3]]%Q /\
  Forall2 row_eq _beta_EXT [[1.0]; [2.0; -1.0]; [3.0; -3.0; 1.0]]%Q /\
  forall (B : Backend) (o : Z) (w : world),
    match fst (_make_order_k_solver o w) with
    | Ok s => coefficients o = Ok (s_alpha s, s_beta_BDF s, s_beta_EXT s)
    | Raise _ => True
    end.
Proof.
  repeat split; try (repeat constructor; reflexivity).
  intros B o w.
  destruct (_make_order_k_solver o w) as [[s|e] w'] eqn:H; [|done].
  apply make_solver_coefficients in H as [_ (_ & _ & _ & _ & Hc)]. exact Hc.
Qed.

(** The lookup as a function of the order: inside [1..3] the row of that
    order, at 0, -1 and -2 the row Python's negative index reaches, and
    [IndexError] everywhere else. *)
Lemma coefficients_cases (o : Z) :
  coefficients o =
    if (1 <=? o) && (o <=? 3) || (-2 <=? o) && (o <=? 0) then
      match _alpha_BDF !! Z.to_nat ((o - 1) `mod` 3),
            _beta_BDF !! Z.to_nat ((o - 1) `mod` 3),
            _beta_EXT !! Z.to_nat ((o - 1) `mod` 3) with
      | Some a, Some b, Some e => Ok (a, b, e)
      | _, _, _ => Raise IndexError
      end
    else Raise IndexError.
Proof.
  assert (o < -2 \/ o = -2 \/ o = -1 \/ o = 0 \/ o = 1 \/ o = 2 \/ o = 3 \/ 3 < o)
    as [H|[->|[->|[->|[->|[->|[->|H]]]]]]] by lia; try reflexivity.
  - rewrite (proj2 (Z.leb_gt 1 o)), (proj2 (Z.leb_gt (-2) o)) by lia. simpl.
    unfold coefficients. rewrite (getitem_out _beta_EXT); [done|simpl; lia].
  - rewrite (proj2 (Z.leb_gt o 3)), (proj2 (Z.leb_gt o 0)) by lia.
    rewrite !andb_false_r. simpl.
    unfold coefficients. rewrite (getitem_out _beta_EXT); [done|simpl; lia].
Qed.

(** C5, as the code has it. The lookup is a function of the order alone
    and leaves the state as it is; it returns a row for every order in
    [1..3]; it raises [IndexError] for every order above 3 or below -2. *)
Theorem coefficients_domain (o : Z) :
  (1 <= o <= MAX_SUPPORTED_ORDER -> exists c, coefficients o = Ok c) /\
  (o > MAX_SUPPORTED_ORDER \/ o < -2 -> coefficients o = Raise IndexError) /\
  (forall (B : Backend) (w : world), snd (_make_order_k_solver o w) = w).
Proof.
  change MAX_SUPPORTED_ORDER with 3. split; [|split].
  - intros H. assert (o = 1 \/ o = 2 \/ o = 3) as [->|[->| ->]] by lia; eauto.
  - intros H. unfold coefficients. rewrite (getitem_out _beta_EXT); [done|simpl; lia].
  - intros B w. apply coefficients_unchanged_world.
Qed.

Lemma coefficients_domain_witness :
  (exists c, coefficients 2 = Ok c) /\ coefficients 4 = Raise IndexError.
Proof.
  split.
  - apply (proj1 (coefficients_domain 2)). unfold MAX_SUPPORTED_ORDER. simpl. lia.
  - apply (proj1 (proj2 (coefficients_domain 4))). left.
    unfold MAX_SUPPORTED_ORDER. simpl. lia.
Defined.

(** C5 as stated fails: order 0 lies outside [1..3], and the lookup of
    order 0 raises nothing; index -1 reaches the row of order 3. *)
Lemma coefficients_order_zero :
  ~ (forall o : Z, ~ (1 <= o <= MAX_SUPPORTED_ORDER) ->
       exists e, coefficients o = Raise e).
Proof.
  intros H. destruct (H 0) as [e He].
  - unfold MAX_SUPPORTED_ORDER. simpl. lia.
  - discriminate He.
Qed.

(** ** Sequencing *)

Section Sequencing.
Context `{B : Backend}.

Lemma bind_ok {A C : Type} (m : M A) (f : A -> M C) (w w' : world) a :
  m w = (Ok a, w') -> (m ≫= f) w = f a w'.
Proof. intros H. unfold mbind, M_bind. by rewrite H. Qed.

Lemma bind_raise {A C : Type} (m : M A) (f : A -> M C) (w w' : world) e :
  m w = (Raise e, w') -> (m ≫= f) w = (Raise e, w').
Proof. intros H. unfold mbind, M_bind. by rewrite H. Qed.

Lemma bind_inv {A C : Type} (m : M A) (f : A -> M C) (w w2 : world) r :
  (m ≫= f) w = (r, w2) ->
  (exists a w1, m w = (Ok a, w1) /\ f a w1 = (r, w2)) \/
  (exists e, m w = (Raise e, w2) /\ r = Raise e).
Proof.
  unfold mbind, M_bind. destruct (m w) as [[a|e] w1]; intros H.
  - left. eauto.
  - right. exists e. by inversion H.
Qed.

Lemma bind_get {C : Type} (f : world -> M C) (w : world) :
  (get ≫= f) w = f w w.
Proof. reflexivity. Qed.

Lemma bind_modify {C : Type} (g : world -> world) (f : unit -> M C) (w : world) :
  (modify g ≫= f) w = f tt (g w).
Proof. reflexivity. Qed.

Lemma set_u_prev_same (w : world) : set_u_prev (u_prev w) w = w.
Proof. by destruct w. Qed.

End Sequencing.

(** ** History of previous velocities *)

Section History.
Context `{B : Backend}.
Implicit Types (w : world) (us front back : list V) (x y : V).

Lemma range_seq (n : nat) : range (Z.of_nat n) = Z.of_nat <$> seq 0 n.
Proof. unfold range. by rewrite Nat2Z.id. Qed.

Lemma seed_replicate (n : Z) x : seed n x = replicate (Z.to_nat n) x.
Proof.
  unfold seed, range. rewrite <- !list_fmap_compose.
  generalize 0%nat. induction (Z.to_nat n) as [|m IH]; intros j; simpl; [done|].
  f_equal. apply IH.
Qed.

Lemma shift_slot_run (i : Z) w dst src :
  slot (u_prev w) (- (i + 1)) = Ok dst ->
  getitem (u_prev w) (- (i + 2)) = Ok src ->
  shift_slot i w = (Ok tt, set_u_prev (<[dst := src]> (u_prev w)) w).
Proof.
  intros Hdst Hsrc. unfold shift_slot, mbind, M_bind, get, lift, modify.
  by rewrite Hdst, Hsrc.
Qed.

(** The loop of lines 175-176, taken up when the last [length back] slots
    have been moved already: it copies every slot of [front] one place
    towards the end. *)
Lemma shift_loop front : forall x back w,
  u_prev w = front ++ x :: back ->
  for_each (Z.of_nat <$> seq (length back) (length front)) shift_slot w
  = (Ok tt, set_u_prev (hd x front :: front ++ back) w).
Proof.
  induction front as [|a front IH] using rev_ind; intros x back w Hw.
  - simpl in *. rewrite <- Hw. by rewrite set_u_prev_same.
  - rewrite length_app, Nat.add_1_r. cbn [seq fmap list_fmap for_each].
    assert (length (u_prev w) = (length front + 2 + length back)%nat) as Hlen.
    { rewrite Hw, !length_app. simpl. lia. }
    assert (slot (u_prev w) (- (Z.of_nat (length back) + 1)) = Ok (S (length front)))
      as Hdst.
    { unfold slot. rewrite py_index_negative by lia. do 2 f_equal. lia. }
    assert (getitem (u_prev w) (- (Z.of_nat (length back) + 2)) = Ok a) as Hsrc.
    { apply getitem_negative; [lia|].
      replace (Z.to_nat _) with (length front) by lia.
      rewrite Hw, <- app_assoc. by apply list_lookup_middle. }
    rewrite (bind_ok _ _ _ _ _ (shift_slot_run _ _ _ _ Hdst Hsrc)).
    rewrite (IH a (a :: back)).
    + replace (hd x (front ++ [a]) :: (front ++ [a]) ++ back)
        with (hd a front :: front ++ a :: back); [done|].
      f_equal; [by destruct front | by rewrite <- app_assoc].
    + cbn. rewrite Hw, <- app_assoc. cbn.
      replace (S (length front)) with (length front + 1)%nat by lia.
      by rewrite insert_app_r.
Qed.

End History.

Section HistoryRotation.
Context `{B : Backend}.
Implicit Types (w : world) (us : list V) (x y : V).

(** Lines 174-178 as one assignment: the velocity of the flow in front of
    the history without its oldest entry. *)
Lemma rotate_history_run w fl :
  1 <= k w -> length (u_prev w) = Z.to_nat (k w) ->
  heap w !! flow w = Some fl ->
  rotate_history w = (Ok tt, set_u_prev (fst (q fl) :: removelast (u_prev w)) w).
Proof.
  intros Hk Hlen Hfl.
  destruct (u_prev w) as [|u0 us] eqn:Hus using rev_ind; [simpl in Hlen; lia|].
  clear IHus. rewrite length_app in Hlen. simpl in Hlen.
  unfold rotate_history.
  rewrite (bind_ok _ _ w w w) by done.
  replace (k w - 1) with (Z.of_nat (length us)) by lia.
  rewrite range_seq.
  pose proof (shift_loop us u0 [] w) as Hloop. simpl in Hloop.
  rewrite app_nil_r in Hloop.
  rewrite (bind_ok _ _ _ _ _ (Hloop Hus)).
  unfold mbind, M_bind, get, lift, slot, deref, modify. cbn.
  rewrite Hfl. cbn. rewrite removelast_last. done.
Qed.

End HistoryRotation.

Section HistoryClaims.
Context `{B : Backend}.
Implicit Types (w : world) (us : list V) (x y : V).

Lemma initialize_functions_run w fl :
  heap w !! flow w = Some fl ->
  initialize_functions w =
    (Ok tt, set_u_prev (replicate (Z.to_nat (k w)) (fst (q fl))) w).
Proof.
  intros Hfl. unfold initialize_functions, mbind, M_bind, get, deref, modify.
  by rewrite Hfl, seed_replicate.
Qed.

(** C6. Rotating a full history of [k] entries puts the velocity [y] just
    solved for in front and drops the oldest entry, the others moving one
    place towards the oldest; the length stays [k]. With [k = 3], a history
    seeded with [x] becomes [[y; x; x]]. *)
Theorem history_seed_rotate w x y (p : Pr) (m : Model) :
  1 <= k w ->
  length (u_prev w) = Z.to_nat (k w) ->
  heap w !! flow w = Some (FlowObj (y, p) m) ->
  rotate_history w = (Ok tt, set_u_prev (y :: removelast (u_prev w)) w) /\
  length (y :: removelast (u_prev w)) = Z.to_nat (k w) /\
  seed 3 x = [x; x; x] /\
  (u_prev w = seed 3 x ->
   rotate_history w = (Ok tt, set_u_prev [y; x; x] w)).
Proof.
  intros Hk Hlen Hfl.
  pose proof (rotate_history_run w _ Hk Hlen Hfl) as Hrot. simpl in Hrot.
  split; [exact Hrot|]. split; [|split; [reflexivity|]].
  - destruct (u_prev w) as [|u0 us] using rev_ind; [simpl in Hlen; lia|].
    rewrite removelast_last. rewrite length_app in Hlen. simpl in *. lia.
  - intros Hseed. rewrite Hrot, Hseed. reflexivity.
Qed.

End HistoryClaims.

Lemma history_seed_rotate_witness :
  let w := @set_heap (Bench.scalar Bench.never)
             {[ Bench.the_flow := @FlowObj (Bench.scalar Bench.never) (2%Q, tt) (0%Q, 0%Q) ]}
             (Bench.controller Bench.never 3 [0; 0]%Q) in
  u_prev w = [1; 1; 1]%Q /\
  rotate_history w = (Ok tt, @set_u_prev (Bench.scalar Bench.never) [2; 1; 1]%Q w).
Proof.
  intros w. split; [reflexivity|].
  apply (@history_seed_rotate (Bench.scalar Bench.never) w 1%Q 2%Q tt (0%Q, 0%Q)).
  - vm_compute. discriminate.
  - reflexivity.
  - reflexivity.
  - reflexivity.
Defined.

(** ** Extrapolation *)

Section Extrapolation.
Context `{B : Backend}.
Implicit Types (w : world) (us : list V) (x y : V).

Lemma solve_keeps_history (s : solver) w : u_prev (snd (solve s w)) = u_prev w.
Proof.
  unfold solve, mbind, M_bind, get, deref, update_flow, modify, raise.
  destruct (heap w !! s_flow s) as [fl|]; [|done].
  by destruct (delegated s w fl).
Qed.

Lemma wind_run (o : Z) us :
  1 <= o <= 3 -> (Z.to_nat o <= length us)%nat ->
  wind o us = Ok (wind_sum o us).
Proof.
  intros Ho Hlen.
  assert (o = 1 \/ o = 2 \/ o = 3) as [->|[->| ->]] by lia;
    simpl in Hlen.
  - destruct us as [|u0 us]; [simpl in Hlen; lia|]. reflexivity.
  - destruct us as [|u0 [|u1 us]]; try (simpl in Hlen; lia). reflexivity.
  - destruct us as [|u0 [|u1 [|u2 us]]]; try (simpl in Hlen; lia). reflexivity.
Qed.

Lemma wind_first_entries (o : Z) us :
  1 <= o <= 3 -> wind o (take (Z.to_nat o) us) = wind o us.
Proof.
  intros Ho.
  assert (o = 1 \/ o = 2 \/ o = 3) as [->|[->| ->]] by lia.
  - by destruct us as [|u0 us].
  - by destruct us as [|u0 [|u1 us]].
  - by destruct us as [|u0 [|u1 [|u2 us]]].
Qed.

End Extrapolation.

(** C7. On a history with at least [o] entries, the wind of order [o] is
    the sum of [beta_EXT[i] * history[i]] over the first [o] entries, and
    no later entry matters; on [[y; x; x]] the wind of order 2 is
    [0 + 2 * y + (-1) * x], which on rationals is [2 * y - 1 * x]. Forming
    it, and solving with it, leaves the history as it is. *)
Theorem wind_is_extrapolation `{B : Backend} (o : Z) (us : list V) :
  1 <= o <= 3 ->
  (Z.to_nat o <= length us)%nat ->
  wind o us = Ok (wind_sum o us) /\
  wind o (take (Z.to_nat o) us) = wind o us /\
  (forall x y : V,
     wind 2 [y; x; x] = Ok (vadd (vadd vzero (vscale 2.0 y)) (vscale (-1.0) x))) /\
  (forall x y : Q, exists r : Q,
     @wind (Bench.scalar Bench.never) 2 [y; x; x] = Ok r /\ r == 2 * y - 1 * x) /\
  (forall (w : world) (s : solver),
     snd (_make_order_k_solver o w) = w /\
     u_prev (snd (solve s w)) = u_prev w).
Proof.
  intros Ho Hlen. split; [by apply wind_run|]. split; [by apply wind_first_entries|].
  split; [reflexivity|]. split.
  - intros x y. exists (0 + 2.0 * y + -1.0 * x)%Q. split; [reflexivity|ring].
  - intros w s. split; [apply coefficients_unchanged_world|apply solve_keeps_history].
Qed.

Lemma wind_is_extrapolation_witness :
  @wind (Bench.scalar Bench.never) 2 [5; 3; 3]%Q
  = Ok (@wind_sum (Bench.scalar Bench.never) 2 [5; 3; 3]%Q).
Proof.
  apply (@wind_is_extrapolation (Bench.scalar Bench.never) 2 [5; 3; 3]%Q).
  - lia.
  - simpl. lia.
Defined.

(** ** Construction *)

Section Strings.

Lemma append_assoc (a b c : string) : (a +:+ b) +:+ c = a +:+ b +:+ c.
Proof.
  induction a as [|ch a IH]; [reflexivity|].
  change (String ch ((a +:+ b) +:+ c) = String ch (a +:+ b +:+ c)).
  by rewrite IH.
Qed.

Lemma append_empty_r (a : string) : a +:+ "" = a.
Proof.
  induction a as [|ch a IH]; [reflexivity|].
  change (String ch (a +:+ "") = String ch a). by rewrite IH.
Qed.

Lemma occurs_refl (s : string) : occurs s s.
Proof. exists "", "". change (s = s +:+ ""). by rewrite append_empty_r. Qed.

Lemma occurs_between (s msg a b : string) :
  occurs s msg -> occurs s (a +:+ msg +:+ b).
Proof.
  intros (pre & post & ->). exists (a +:+ pre), (post +:+ b).
  by rewrite !append_assoc.
Qed.

Lemma occurs_trans (s1 s2 s3 : string) :
  occurs s1 s2 -> occurs s2 s3 -> occurs s1 s3.
Proof. intros H12 (pre & post & ->). by apply occurs_between. Qed.

Lemma occurs_join (sep x : string) (xs : list string) :
  x ∈ xs -> occurs x (join sep xs).
Proof.
  induction xs as [|x0 xs IH]; intros Hx; [by apply elem_of_nil in Hx|].
  apply elem_of_cons in Hx as [->|Hx].
  - destruct xs as [|x1 xs]; [apply occurs_refl|].
    exists "", (sep +:+ join sep (x1 :: xs)). reflexivity.
  - destruct xs as [|x1 xs]; [by apply elem_of_nil in Hx|].
    change (join sep (x0 :: x1 :: xs))
      with (x0 +:+ sep +:+ join sep (x1 :: xs)).
    rewrite <- (append_empty_r (join sep (x1 :: xs))), <- append_assoc.
    apply occurs_between. by apply IH.
Qed.

Lemma dict_get_None {A : Type} (d : list (string * A)) (key : string) :
  dict_get d key = None <-> key ∉ keys d.
Proof.
  unfold keys. induction d as [|[key' x] d IH]; simpl.
  - split; [intros _; apply not_elem_of_nil|done].
  - rewrite not_elem_of_cons. destruct (String.eqb_spec key' key) as [->|Hne].
    + split; [done|]. intros [? _]. done.
    + rewrite IH. split; [by intros ?; split|by intros [_ ?]].
Qed.

End Strings.

Section Construction.
Context `{B : Backend}.
Implicit Types (w : world).

Lemma raises_only_bind P {A C : Type} (m : M A) (f : A -> M C) :
  raises_only P m -> (forall a, raises_only P (f a)) -> raises_only P (m ≫= f).
Proof.
  intros Hm Hf w e w' H. apply bind_inv in H as [(a & w1 & _ & H)|(e' & H & [= ->])].
  - by eapply Hf.
  - by eapply Hm.
Qed.

Lemma raises_only_ret P {A : Type} (a : A) : raises_only P (mret a : M A).
Proof. by intros w e w' H. Qed.

Lemma raises_only_get P : raises_only P get.
Proof. by intros w e w' H. Qed.

Lemma raises_only_modify P f : raises_only P (modify f).
Proof. by intros w e w' H. Qed.

Lemma raises_only_lift (P : exn -> Prop) {A : Type} (r : res A) :
  (forall e, r = Raise e -> P e) -> raises_only P (lift r).
Proof. intros Hr w e w' [= -> _]. by apply Hr. Qed.

Lemma raises_only_attr (P : exn -> Prop) {A : Type} name (o : option A) :
  P (AttributeError name) -> raises_only P (attr name o).
Proof. intros HP w e w'. destruct o; [done|]. by intros [= <- _]. Qed.

Lemma raises_only_deref (P : exn -> Prop) l :
  P (AttributeError "flow") -> raises_only P (deref l).
Proof.
  intros HP w e w'. unfold deref. destruct (heap w !! l); [done|].
  by intros [= <- _].
Qed.

Lemma raises_only_for_each P {A : Type} (xs : list A) (body : A -> M unit) :
  (forall x, raises_only P (body x)) -> raises_only P (for_each xs body).
Proof.
  intros Hbody. induction xs as [|x xs IH]; simpl.
  - apply raises_only_ret.
  - apply raises_only_bind; [apply Hbody|by intros _].
Qed.

Lemma getitem_raises {A : Type} (l : list A) (i : Z) e :
  getitem l i = Raise e -> e = IndexError.
Proof.
  unfold getitem, slot. destruct (py_index l i) as [j|]; simpl.
  - destruct (l !! j); [done|]. by intros [= <-].
  - by intros [= <-].
Qed.

Lemma coefficients_raises (o : Z) e : coefficients o = Raise e -> e = IndexError.
Proof.
  unfold coefficients.
  destruct (getitem _beta_EXT (o - 1)) eqn:H1; simpl;
    [|intros [= <-]; by eapply getitem_raises].
  destruct (getitem _beta_BDF (o - 1)) eqn:H2; simpl;
    [|intros [= <-]; by eapply getitem_raises].
  destruct (getitem _alpha_BDF (o - 1)) eqn:H3; simpl;
    [done|intros [= <-]; by eapply getitem_raises].
Qed.

Lemma make_solver_raises (o : Z) :
  raises_only not_value_error (_make_order_k_solver o).
Proof.
  unfold _make_order_k_solver.
  apply raises_only_bind; [apply raises_only_get|intros w].
  apply raises_only_bind.
  - apply raises_only_lift. intros e He.
    apply coefficients_raises in He as ->. by intros msg.
  - intros [[a b] ex]. apply raises_only_bind; [|intros st; apply raises_only_ret].
    apply raises_only_attr. by intros msg.
Qed.

Lemma reset_raises : raises_only not_value_error reset.
Proof.
  unfold reset.
  apply raises_only_bind; [apply raises_only_modify|intros _].
  apply raises_only_bind; [apply raises_only_modify|intros _].
  apply raises_only_bind; [|intros _].
  - unfold initialize_functions.
    apply raises_only_bind; [apply raises_only_get|intros w].
    apply raises_only_bind; [|intros fl; apply raises_only_modify].
    apply raises_only_deref. by intros msg.
  - unfold initialize_operators.
    apply raises_only_bind; [apply raises_only_get|intros w].
    apply raises_only_bind; [apply raises_only_deref; by intros msg|intros fl].
    apply raises_only_bind; [apply raises_only_modify|intros _].
    apply raises_only_bind; [apply make_solver_raises|intros ps].
    apply raises_only_bind; [apply raises_only_modify|intros _].
    apply raises_only_bind; [apply raises_only_modify|intros _].
    destruct (k w >? 1); [|apply raises_only_ret].
    apply raises_only_for_each. intros i. unfold add_startup_solver.
    apply raises_only_bind; [apply make_solver_raises|intros s].
    apply raises_only_modify.
Qed.

Lemma init_unknown fl h order name rtol samples w :
  dict_get ns_stabilization name = None ->
  __init__ fl h order name rtol samples w =
    (Raise (ValueError (not_recognized name)),
     set_ksp_rtol rtol (set_stabilization name (set_k order w))).
Proof.
  intros Hname. unfold __init__, mbind, M_bind, modify, raise.
  by rewrite Hname.
Qed.

Lemma init_known fl h order name rtol samples w st :
  dict_get ns_stabilization name = Some st ->
  __init__ fl h order name rtol samples w =
    reset (set_noise samples (set_dt h (set_flow fl (set_StabilizationType st
      (set_ksp_rtol rtol (set_stabilization name (set_k order w))))))).
Proof.
  intros Hname. unfold __init__, base_init, mbind, M_bind, modify, raise.
  rewrite Hname. by destruct (reset _) as [[[]|e] w'].
Qed.

Lemma not_recognized_lists_keys name key :
  key ∈ keys ns_stabilization -> occurs key (not_recognized name).
Proof.
  intros Hkey. unfold not_recognized, repr_keys.
  rewrite <- !append_assoc, append_assoc. apply occurs_between.
  apply occurs_trans with (repr_str key).
  - unfold repr_str. apply occurs_between, occurs_refl.
  - apply occurs_join. by apply list_elem_of_fmap_2.
Qed.

(** C8. A stabilization name that is not a key of the registry makes the
    constructor raise [ValueError] with a message that names every key of
    the registry; the constructor has then assigned the order, the name
    and the tolerance and nothing else. A name that is a key never makes
    the constructor raise [ValueError]. *)
Theorem unknown_stabilization_rejected fl h order name rtol samples w :
  (name ∉ keys ns_stabilization ->
     __init__ fl h order name rtol samples w =
       (Raise (ValueError (not_recognized name)),
        set_ksp_rtol rtol (set_stabilization name (set_k order w))) /\
     occurs name (not_recognized name) /\
     forall key, key ∈ keys ns_stabilization -> occurs key (not_recognized name)) /\
  (name ∈ keys ns_stabilization ->
     forall msg, fst (__init__ fl h order name rtol samples w) <> Raise (ValueError msg)).
Proof.
  split.
  - intros Hname. apply dict_get_None in Hname.
    split; [by apply init_unknown|]. split.
    + unfold not_recognized. exists "Stabilization type ". eexists. reflexivity.
    + intros key. apply not_recognized_lists_keys.
  - intros Hname msg.
    destruct (dict_get ns_stabilization name) as [st|] eqn:Hst;
      [|by apply dict_get_None in Hst].
    rewrite (init_known _ _ _ _ _ _ _ _ Hst).
    destruct (reset _) as [[[]|e] w'] eqn:Hreset; [done|].
    simpl. intros [= ->]. apply reset_raises in Hreset. by apply (Hreset msg).
Qed.

End Construction.

Lemma unknown_stabilization_rejected_witness :
  fst (@__init__ (Bench.scalar Bench.never) Bench.the_flow (1 # 100)%Q 3 "upwind"
         (1 # 1000000)%Q [] (Bench.blank Bench.never))
  = Raise (ValueError ("Stabilization type upwind not recognized. "
      +:+ "Available options: dict_keys(['none', 'supg', 'gls'])")) /\
  fst (@__init__ (Bench.scalar Bench.never) Bench.the_flow (1 # 100)%Q 3 "supg"
         (1 # 1000000)%Q [] (Bench.blank Bench.never))
  <> Raise (ValueError "").
Proof.
  split.
  - rewrite (proj1 (proj1 (@unknown_stabilization_rejected (Bench.scalar Bench.never)
      Bench.the_flow (1 # 100)%Q 3 "upwind" (1 # 1000000)%Q [] (Bench.blank Bench.never))
      ltac:(unfold keys; cbn; rewrite !elem_of_cons, elem_of_nil;
            intros [H|[H|[H|H]]]; [discriminate H..|exact H]))).
    reflexivity.
  - apply (proj2 (@unknown_stabilization_rejected (Bench.scalar Bench.never)
      Bench.the_flow (1 # 100)%Q 3 "supg" (1 # 1000000)%Q [] (Bench.blank Bench.never))).
    unfold keys. cbn. rewrite !elem_of_cons. right. left. reflexivity.
Defined.

(** ** The step *)

Section Step.
Context `{B : Backend}.
Implicit Types (w : world) (s : solver).

Lemma getitem_lookup {A : Type} (l : list A) (i : Z) (x : A) :
  getitem l i = Ok x -> exists j, l !! j = Some x.
Proof.
  unfold getitem, slot. destruct (py_index l i) as [j|]; simpl; [|done].
  destruct (l !! j) eqn:H; [|done]. intros [= ->]. eauto.
Qed.

Lemma select_solver_world iter w : snd (select_solver iter w) = w.
Proof.
  unfold select_solver, mbind, M_bind, get, attr, lift, raise.
  destruct (iter >? k w - 1); [by destruct (petsc_solver w)|done].
Qed.

Lemma select_solver_flow iter w s :
  ready w -> fst (select_solver iter w) = Ok s -> s_flow s = flow w.
Proof.
  intros Hr. unfold select_solver, mbind, M_bind, get, attr, lift, raise.
  destruct (iter >? k w - 1).
  - destruct (ready_petsc w Hr) as (ps & Hps & Hof). rewrite Hps. simpl.
    intros [= <-]. apply Hof.
  - simpl. intros Hget. apply getitem_lookup in Hget as [j Hj].
    by apply (ready_startup w Hr) in Hj as (_ & ? & _).
Qed.

Lemma select_solver_raises iter w e :
  ready w -> fst (select_solver iter w) = Raise e -> e = IndexError.
Proof.
  intros Hr. unfold select_solver, mbind, M_bind, get, attr, lift, raise.
  destruct (iter >? k w - 1).
  - destruct (ready_petsc w Hr) as (ps & Hps & Hof). by rewrite Hps.
  - simpl. apply getitem_raises.
Qed.

(** Readiness looks at the order, the length of the history, the
    solvers and what they are bound to, and the cursor's sign. *)
Lemma ready_frame w w' :
  ready w ->
  k w' = k w -> length (u_prev w') = length (u_prev w) ->
  flow w' = flow w -> dt w' = dt w ->
  StabilizationType w' = StabilizationType w ->
  petsc_solver w' = petsc_solver w ->
  startup_solvers w' = startup_solvers w ->
  is_Some (heap w' !! flow w) -> 0 <= noise_idx w' ->
  ready w'.
Proof.
  intros [Ho Hh Hf (ps & Hps & Hof) Hl Hs Hc] Hk Hlen Hflow Hdt Hst Hp Hss Hheap Hidx.
  assert (forall o s, solver_of w o s -> solver_of w' o s) as Hsolver.
  { unfold solver_of. intros o s. rewrite Hflow, Hdt, Hst. done. }
  constructor; rewrite ?Hk, ?Hlen, ?Hflow, ?Hp, ?Hss; try done.
  - exists ps. split; [done|]. by apply Hsolver.
  - intros i s Hi. by apply Hsolver, Hs.
Qed.

Lemma actuate_lookup control w :
  is_Some (heap w !! flow w) -> is_Some (actuate control w !! flow w).
Proof.
  intros [fl Hfl]. unfold actuate. rewrite Hfl. destruct control as [c|]; [|by eexists].
  destruct (update_actuators c (dt w) (model fl)) as [bc m].
  rewrite lookup_insert_eq. by eexists.
Qed.

Lemma ready_forced control x w : ready w -> ready (forced control x w).
Proof.
  intros Hr. apply (ready_frame w); try done.
  - apply actuate_lookup, Hr.
  - apply Hr.
Qed.

Lemma force_no_sample control w e :
  getitem (noise w) (noise_idx w) = Raise e ->
  force_and_actuate control w = (Raise e, w).
Proof.
  intros Hx. unfold force_and_actuate, mbind, M_bind, get, lift. by rewrite Hx.
Qed.

Lemma force_run control w x :
  getitem (noise w) (noise_idx w) = Ok x ->
  is_Some (heap w !! flow w) ->
  force_and_actuate control w = (Ok tt, forced control x w).
Proof.
  intros Hx [fl Hfl].
  unfold force_and_actuate, forced, actuate, mbind, M_bind, get, lift, modify,
    deref, update_flow, mret, M_ret.
  rewrite Hx. cbn. rewrite Hfl. destruct control as [c|]; [|done].
  change (heap (set_eta x w)) with (heap w). rewrite Hfl. cbn.
  by destruct (update_actuators c (dt w) (model fl)) as [bc m].
Qed.

Lemma solve_run s w fl :
  heap w !! s_flow s = Some fl ->
  solve s w =
    match delegated s w fl with
    | Solved q' => (Ok tt, solved s q' fl w)
    | Failed q' => (Raise LinearSolveError, solved s q' fl w)
    end.
Proof.
  intros Hfl. unfold solve, solved, mbind, M_bind, get, deref, update_flow,
    modify, raise.
  rewrite Hfl. by destruct (delegated s w fl).
Qed.

Lemma advance_run w :
  advance w =
    (if noise_idx w + 1 <? Z.of_nat (length (noise w)) then Ok tt
     else Raise out_of_noise,
     set_noise_idx (noise_idx w + 1) (set_t (t w + dt w)%Q w)).
Proof.
  unfold advance, mbind, M_bind, get, modify, raise, mret, M_ret. cbn.
  by destruct (noise_idx w + 1 <? Z.of_nat (length (noise w))).
Qed.

(** Every step of a ready controller ends in one of the five ways. *)
Lemma step_classified iter control w :
  ready w ->
  step_outcome iter control w
    (fst (step iter control w)) (snd (step iter control w)).
Proof.
  intros Hr. unfold step.
  destruct (getitem (noise w) (noise_idx w)) as [x|e] eqn:Hx.
  2: { pose proof (getitem_raises _ _ _ Hx) as ->.
       rewrite (bind_raise _ _ _ _ _ (force_no_sample control _ _ Hx)).
       by constructor. }
  rewrite (bind_ok _ _ _ _ _ (force_run control w x Hx (ready_flow w Hr))).
  pose proof (ready_forced control x w Hr) as Hr1.
  pose proof (select_solver_world iter (forced control x w)) as Hw1.
  pose proof (select_solver_flow iter (forced control x w)) as Hsf.
  pose proof (select_solver_raises iter (forced control x w)) as Hse.
  destruct (select_solver iter (forced control x w)) as [[s|e] w1] eqn:Hsel;
    simpl in Hw1; subst w1.
  2: { rewrite (bind_raise _ _ _ _ _ Hsel). rewrite (Hse e Hr1 eq_refl) in *.
       eapply step_no_solver; [exact Hx|]. by rewrite Hsel. }
  clear Hse.
  rewrite (bind_ok _ _ _ _ _ Hsel).
  specialize (Hsf s Hr1 eq_refl). change (s_flow s = flow w) in Hsf.
  destruct (ready_flow _ Hr1) as [fl Hfl]. change (heap (forced control x w) !! flow w = Some fl) in Hfl.
  pose proof (solve_run s (forced control x w) fl) as Hsolve.
  rewrite Hsf in Hsolve. specialize (Hsolve Hfl).
  destruct (delegated s (forced control x w) fl) as [q'|q'] eqn:Hd.
  2: { rewrite (bind_raise _ _ _ _ _ Hsolve).
       eapply step_solve_failed; try done. by rewrite Hsel. }
  rewrite (bind_ok _ _ _ _ _ Hsolve).
  rewrite (bind_ok _ _ _ _ _
    (rotate_history_run (solved s q' fl (forced control x w))
       (FlowObj q' (model fl)) (proj1 (ready_order w Hr)) (ready_history w Hr)
       ltac:(unfold solved; cbn; rewrite Hsf; apply lookup_insert_eq))).
  set (w3 := set_u_prev _ _).
  pose proof (advance_run w3) as Hadv.
  change (noise_idx w3) with (noise_idx w) in Hadv.
  change (noise w3) with (noise w) in Hadv.
  destruct (Z.ltb_spec (noise_idx w + 1) (Z.of_nat (length (noise w)))).
  - rewrite (bind_ok _ _ _ _ _ Hadv).
    change (step_outcome iter control w (Ok (flow w))
              (commit (fst q') (solved s q' fl (forced control x w)))).
    eapply step_done; try done. by rewrite Hsel.
  - rewrite (bind_raise _ _ _ _ _ Hadv).
    change (step_outcome iter control w (Raise out_of_noise)
              (commit (fst q') (solved s q' fl (forced control x w)))).
    eapply step_out_of_noise; try done. by rewrite Hsel.
Qed.

(** What a step keeps whatever its end: the order, the noise, the flow
    handle, the step size and the solvers. *)
Lemma step_keeps iter control w r w' :
  step_outcome iter control w r w' ->
  k w' = k w /\ noise w' = noise w /\ flow w' = flow w /\ dt w' = dt w /\
  petsc_solver w' = petsc_solver w /\ startup_solvers w' = startup_solvers w.
Proof. by intros []. Qed.

Lemma step_outcome_ready iter control w r w' :
  ready w -> step_outcome iter control w r w' -> ready w'.
Proof.
  intros Hr [| x ? ? | x s fl q' ? ? Hsf ? ? | x s fl q' ? ? Hsf ? ? ? | x s fl q' ? ? Hsf ? ? ?];
    [done|by apply ready_forced|..].
  - apply (ready_frame w); try done; [|apply Hr].
    unfold solved. cbn. rewrite Hsf, lookup_insert_eq. by eexists.
  - apply (ready_frame w); try done.
    + cbn. pose proof (ready_history w Hr) as Hh. pose proof (ready_order w Hr).
      destruct (u_prev w) as [|u0 us] using rev_ind; [simpl in *; lia|].
      rewrite removelast_last, length_app. simpl. lia.
    + unfold solved. cbn. rewrite Hsf, lookup_insert_eq. by eexists.
    + cbn. pose proof (ready_cursor w Hr). lia.
  - apply (ready_frame w); try done.
    + cbn. pose proof (ready_history w Hr) as Hh. pose proof (ready_order w Hr).
      destruct (u_prev w) as [|u0 us] using rev_ind; [simpl in *; lia|].
      rewrite removelast_last, length_app. simpl. lia.
    + unfold solved. cbn. rewrite Hsf, lookup_insert_eq. by eexists.
    + cbn. pose proof (ready_cursor w Hr). lia.
Qed.

End Step.

(** ** Failure and the state it leaves *)

Section Failure.
Context `{B : Backend}.
Implicit Types (w : world) (s : solver).

Lemma step_outcome_of iter control w r w' :
  ready w -> step iter control w = (r, w') -> step_outcome iter control w r w'.
Proof.
  intros Hr Hstep. pose proof (step_classified iter control w Hr) as H.
  by rewrite Hstep in H.
Qed.

Lemma actuate_lookup_ne control w l :
  l <> flow w -> actuate control w !! l = heap w !! l.
Proof.
  intros Hl. unfold actuate. destruct control as [c|]; [|done].
  destruct (heap w !! flow w) as [fl|]; [|done].
  destruct (update_actuators c (dt w) (model fl)) as [bc m].
  by rewrite lookup_insert_ne.
Qed.

(** C3, as the code has it. A step of a ready controller that raises
    anything but the noise assertion (the delegated solve failed, or no
    sample or no start-up solver could be indexed) leaves the history, the
    clock and the noise cursor as they were; the step index is the
    caller's. A step that raises the noise assertion has rotated the
    history and advanced the clock and the cursor before it. *)
Theorem failed_step_state w iter control e w' :
  ready w ->
  step iter control w = (Raise e, w') ->
  (e <> out_of_noise /\
   u_prev w' = u_prev w /\ t w' = t w /\ noise_idx w' = noise_idx w) \/
  (e = out_of_noise /\
   (exists y, u_prev w' = y :: removelast (u_prev w)) /\
   t w' = (t w + dt w)%Q /\ noise_idx w' = noise_idx w + 1).
Proof.
  intros Hr Hstep. apply step_outcome_of in Hstep; [|done].
  inversion Hstep; subst.
  - left. by repeat split.
  - left. by repeat split.
  - left. by repeat split.
  - right. split; [done|]. split; [|done]. by eexists.
Qed.

(** C9. A step that returns, returns the handle the controller holds on
    the flow: the handle the selected solver is bound to and wrote the
    solution through. No flow object is created and no other is written. *)
Theorem step_returns_flow_itself w iter control r w' :
  ready w ->
  step iter control w = (Ok r, w') ->
  r = flow w /\ flow w' = flow w /\
  (exists x s fl q',
     getitem (noise w) (noise_idx w) = Ok x /\
     fst (select_solver iter (forced control x w)) = Ok s /\
     s_flow s = r /\
     delegated s (forced control x w) fl = Solved q' /\
     heap w' !! r = Some (FlowObj q' (model fl))) /\
  (forall l, l <> r -> heap w' !! l = heap w !! l) /\
  (forall l, is_Some (heap w' !! l) <-> is_Some (heap w !! l)).
Proof.
  intros Hr Hstep. apply step_outcome_of in Hstep; [|done].
  inversion Hstep as [| | |x s fl q' Hx Hsel Hsf Hfl Hd Hlt|]; subst.
  split; [done|]. split; [done|].
  assert (forall l, l <> flow w ->
    heap (commit q'.1 (solved s q' fl (forced control x w))) !! l = heap w !! l)
    as Hother.
  { intros l Hl. unfold solved. cbn. rewrite Hsf, lookup_insert_ne by done.
    by apply actuate_lookup_ne. }
  split; [|split; [done|]].
  - exists x, s, fl, q'. repeat split; try done.
    unfold solved. cbn. by rewrite Hsf, lookup_insert_eq.
  - intros l. destruct (decide (l = flow w)) as [->|Hl]; [|by rewrite Hother].
    split; intros _; [apply Hr|].
    unfold solved. cbn. rewrite Hsf, lookup_insert_eq. by eexists.
Qed.

(** C10. When the delegated solve raises, the forcing amplitude is the
    sample at the cursor, and a control input has gone through the
    actuators into the model's state and boundary-condition scale; the
    state the step ends in keeps both. *)
Theorem solve_failure_keeps_forcing w iter control w' :
  ready w ->
  step iter control w = (Raise LinearSolveError, w') ->
  exists x fl fl',
    getitem (noise w) (noise_idx w) = Ok x /\ eta w' = x /\
    heap w !! flow w = Some fl /\ heap w' !! flow w = Some fl' /\
    model fl' =
      match control with
      | Some c =>
          set_control (fst (update_actuators c (dt w) (model fl)))
                      (snd (update_actuators c (dt w) (model fl)))
      | None => model fl
      end.
Proof.
  intros Hr Hstep. apply step_outcome_of in Hstep; [|done].
  inversion Hstep as [| |x s fl1 q' Hx Hsel Hsf Hfl1 Hd| |]; subst.
  destruct (ready_flow w Hr) as [fl Hfl].
  exists x, fl, (FlowObj q' (model fl1)). repeat split; try done.
  - unfold solved. cbn. by rewrite Hsf, lookup_insert_eq.
  - cbn in Hfl1. unfold actuate in Hfl1. destruct control as [c|].
    + rewrite Hfl in Hfl1.
      destruct (update_actuators c (dt w) (model fl)) as [bc m].
      rewrite lookup_insert_eq in Hfl1. by injection Hfl1 as <-.
    + rewrite Hfl in Hfl1. by injection Hfl1 as <-.
Qed.

End Failure.

(** ** Construction establishes readiness *)

Section Readiness.
Context `{B : Backend}.
Implicit Types (w : world) (s : solver).

Lemma solver_of_made w o st c :
  StabilizationType w = Some st -> coefficients o = Ok c ->
  solver_of w o (Solver o (fst (fst c)) (snd (fst c)) (snd c) (dt w) st (flow w)).
Proof. intros Hst Hc. destruct c as [[a b] e]. by repeat split. Qed.

Ltac run_add :=
  match goal with
  | Hadd : context [add_startup_solver], Hst : StabilizationType _ = Some _
    |- context [(add_startup_solver ?i ≫= _) ?w0] =>
      rewrite (bind_ok _ _ w0 _ _ (Hadd i _ eq_refl w0 Hst eq_refl eq_refl))
  end.

Lemma initialize_operators_run w st fl :
  StabilizationType w = Some st ->
  heap w !! flow w = Some fl ->
  1 <= k w <= 3 ->
  exists ps ss,
    initialize_operators w =
      (Ok tt, set_startup_solvers ss (set_petsc_solver ps
         (set_heap (<[flow w := FlowObj (q fl) (init_bcs (model fl))]> (heap w)) w))) /\
    solver_of w (k w) ps /\
    length ss = Z.to_nat (k w - 1) /\
    (forall (i : nat) s, ss !! i = Some s -> solver_of w (Z.of_nat i + 1) s).
Proof.
  intros Hst Hfl Hk.
  assert (forall o c, coefficients o = Ok c -> forall w1,
            StabilizationType w1 = Some st -> dt w1 = dt w -> flow w1 = flow w ->
            _make_order_k_solver o w1 =
              (Ok (Solver o (fst (fst c)) (snd (fst c)) (snd c) (dt w) st (flow w)), w1))
    as Hmake.
  { intros o c Hc w1 Hst1 Hdt1 Hflow1.
    rewrite (make_solver_ok o w1 st c Hst1 Hc). by rewrite Hdt1, Hflow1. }
  assert (forall i c, coefficients (i + 1) = Ok c -> forall w1,
            StabilizationType w1 = Some st -> dt w1 = dt w -> flow w1 = flow w ->
            add_startup_solver i w1 =
              (Ok tt, set_startup_solvers (startup_solvers w1 ++
                 [Solver (i + 1) (fst (fst c)) (snd (fst c)) (snd c) (dt w) st (flow w)]) w1))
    as Hadd.
  { intros i c Hc w1 Hst1 Hdt1 Hflow1. unfold add_startup_solver.
    by rewrite (bind_ok _ _ _ _ _ (Hmake (i + 1) c Hc w1 Hst1 Hdt1 Hflow1)). }
  unfold initialize_operators.
  rewrite bind_get.
  rewrite (bind_ok _ _ w w fl) by (unfold deref; by rewrite Hfl).
  unfold update_flow. rewrite bind_modify.
  set (w1 := set_heap _ w).
  assert (k w = 1 \/ k w = 2 \/ k w = 3) as [Hk1|[Hk1|Hk1]] by lia; rewrite Hk1.
  - rewrite (bind_ok _ _ _ _ _ (Hmake 1 _ eq_refl w1 Hst eq_refl eq_refl)).
    rewrite !bind_modify.
    eexists _, []. split; [reflexivity|].
    split; [exact (solver_of_made w 1 st _ Hst eq_refl)|].
    split; [done|]. intros i s Hi. by rewrite lookup_nil in Hi.
  - rewrite (bind_ok _ _ _ _ _ (Hmake 2 _ eq_refl w1 Hst eq_refl eq_refl)).
    rewrite !bind_modify.
    change (2 >? 1) with true. cbv iota. change (range (2 - 1)) with [0].
    cbn [for_each].
    eexists _, [_]. split.
    { run_add. reflexivity. }
    split; [exact (solver_of_made w 2 st _ Hst eq_refl)|].
    split; [done|]. intros [|[|i]] s Hi; [|done..].
    injection Hi as <-. exact (solver_of_made w 1 st _ Hst eq_refl).
  - rewrite (bind_ok _ _ _ _ _ (Hmake 3 _ eq_refl w1 Hst eq_refl eq_refl)).
    rewrite !bind_modify.
    change (3 >? 1) with true. cbv iota. change (range (3 - 1)) with [0; 1].
    cbn [for_each].
    eexists _, [_; _]. split.
    { run_add. run_add. reflexivity. }
    split; [exact (solver_of_made w 3 st _ Hst eq_refl)|].
    split; [done|]. intros [|[|[|i]]] s Hi; [| |done..].
    + injection Hi as <-. exact (solver_of_made w 1 st _ Hst eq_refl).
    + injection Hi as <-. exact (solver_of_made w 2 st _ Hst eq_refl).
Qed.

Lemma reset_ready w st :
  StabilizationType w = Some st ->
  is_Some (heap w !! flow w) ->
  1 <= k w <= 3 ->
  exists w', reset w = (Ok tt, w') /\ ready w' /\
    noise_idx w' = 0 /\ t w' = 0%Q /\
    k w' = k w /\ noise w' = noise w /\ dt w' = dt w /\ flow w' = flow w.
Proof.
  intros Hst [fl Hfl] Hk. unfold reset.
  rewrite (bind_ok _ _ w (set_t 0%Q w) tt) by done.
  rewrite (bind_ok _ _ _ (set_noise_idx 0 (set_t 0%Q w)) tt) by done.
  set (w1 := set_noise_idx 0 _).
  rewrite (bind_ok _ _ _ _ _ (initialize_functions_run w1 fl Hfl)).
  set (w2 := set_u_prev _ w1).
  destruct (initialize_operators_run w2 st fl Hst Hfl Hk)
    as (ps & ss & Hrun & Hps & Hlen & Hss).
  rewrite Hrun. eexists. split; [reflexivity|]. split; [|done].
  constructor; cbn; try done.
  - by rewrite length_replicate.
  - rewrite lookup_insert_eq. by eexists.
  - by exists ps.
Qed.

Lemma init_ready fl h order name rtol samples w :
  name ∈ keys ns_stabilization ->
  1 <= order <= 3 ->
  is_Some (heap w !! fl) ->
  exists w', __init__ fl h order name rtol samples w = (Ok tt, w') /\ ready w' /\
    noise_idx w' = 0 /\ t w' = 0%Q /\
    k w' = order /\ noise w' = samples /\ dt w' = h /\ flow w' = fl.
Proof.
  intros Hname Ho Hfl.
  destruct (dict_get ns_stabilization name) as [st|] eqn:Hst;
    [|by apply dict_get_None in Hst].
  rewrite (init_known _ _ _ _ _ _ _ _ Hst).
  set (w0 := set_noise samples _).
  exact (reset_ready w0 st eq_refl Hfl Ho).
Qed.

End Readiness.

Lemma bench_ready (fails : Q -> bool) (order : Z) (samples : list Q) :
  1 <= order <= 3 ->
  ready (Bench.controller fails order samples) /\
  noise_idx (Bench.controller fails order samples) = 0 /\
  k (Bench.controller fails order samples) = order /\
  noise (Bench.controller fails order samples) = samples.
Proof.
  intros Ho. unfold Bench.controller.
  destruct (@init_ready (Bench.scalar fails) Bench.the_flow (1 # 100)%Q order "none"
              (1 # 1000000)%Q samples (Bench.blank fails))
    as (w' & -> & Hr & Hi & _ & Hk & Hn & _); try done.
  unfold keys. cbn. rewrite elem_of_cons. by left.
Qed.

(** ** Start-up policy *)

Section Policy.
Context `{B : Backend}.
Implicit Types (w : world) (s : solver).

Lemma selected_order_of iter w s o :
  fst (select_solver iter w) = Ok s -> s_order s = o -> selected_order iter w = Ok o.
Proof. intros Hs Ho. unfold selected_order. by rewrite Hs, Ho. Qed.

(** The order the code selects, for every step index from 0. *)
Lemma select_solver_policy w (n : Z) :
  ready w -> 0 <= n ->
  selected_order n w =
    if n >? k w - 1 then Ok (k w)
    else if n =? 0 then (if k w =? 1 then Raise IndexError else Ok (k w - 1))
    else Ok n.
Proof.
  intros Hr Hn. pose proof (ready_order w Hr) as Hk.
  pose proof (ready_startup_length w Hr) as Hlen.
  destruct (Z.gtb_spec n (k w - 1)) as [Hgt|Hle].
  - destruct (ready_petsc w Hr) as (ps & Hps & Ho & _).
    apply (selected_order_of _ _ ps); [|done].
    unfold select_solver, mbind, M_bind, get, attr.
    destruct (Z.gtb_spec n (k w - 1)); [|lia]. by rewrite Hps.
  - assert (fst (select_solver n w) = getitem (startup_solvers w) (n - 1)) as Hsel.
    { unfold select_solver, mbind, M_bind, get, lift.
      by destruct (Z.gtb_spec n (k w - 1)); [lia|]. }
    destruct (Z.eqb_spec n 0) as [->|Hn0].
    + destruct (Z.eqb_spec (k w) 1) as [Hk1|Hk1].
      * unfold selected_order. rewrite Hsel, getitem_out; [done|]. lia.
      * destruct (lookup_lt_is_Some_2 (startup_solvers w) (Z.to_nat (k w - 2)))
          as [s Hs]; [lia|].
        apply (selected_order_of _ _ s).
        -- rewrite Hsel. apply getitem_negative; [lia|].
           by replace (Z.to_nat _) with (Z.to_nat (k w - 2)) by lia.
        -- apply (ready_startup w Hr) in Hs as [-> _]. lia.
    + destruct (lookup_lt_is_Some_2 (startup_solvers w) (Z.to_nat (n - 1)))
        as [s Hs]; [lia|].
      apply (selected_order_of _ _ s).
      * rewrite Hsel. apply getitem_nonneg; [lia|done].
      * apply (ready_startup w Hr) in Hs as [-> _]. lia.
Qed.

(** Read with step indices counted from 1, the same code follows the
    start-up policy of the specification. *)
Lemma select_solver_one_based w (n : Z) :
  ready w -> 0 <= n -> selected_order (n + 1) w = Ok (startup_policy (k w) n).
Proof.
  intros Hr Hn. rewrite select_solver_policy by (done || lia).
  unfold startup_policy.
  destruct (Z.gtb_spec (n + 1) (k w - 1)), (Z.leb_spec n (k w - 2)); try lia; [done|].
  destruct (Z.eqb_spec (n + 1) 0); [lia|done].
Qed.

Lemma select_solver_ok w (iter : Z) :
  ready w -> 0 <= iter -> 2 <= k w \/ 1 <= iter ->
  exists s, fst (select_solver iter w) = Ok s.
Proof.
  intros Hr Hi Hk. pose proof (select_solver_policy w iter Hr Hi) as H.
  unfold selected_order in H.
  destruct (fst (select_solver iter w)) as [s|e]; [by eexists|].
  destruct (iter >? k w - 1); [done|].
  destruct (Z.eqb_spec iter 0); [|done].
  destruct (Z.eqb_spec (k w) 1); [lia|done].
Qed.

End Policy.

(** C1, on the code. With order 3 the step of index 0 solves with the
    order-2 solver, the step of index 1 with the order-1 solver, the step
    of index 2 with the order-2 solver again, and only from index 3 on
    with the order-3 solver; the policy asks for orders 1, 2, 3, 3. With
    order 1 the step of index 0 raises [IndexError] before any solve. *)
Theorem startup_ramp_is_shifted :
  let w3 := Bench.controller Bench.never 3 [0; 0; 0; 0; 0]%Q in
  let w1 := Bench.controller Bench.never 1 [0; 0; 0; 0; 0]%Q in
  (selected_order 0 w3 = Ok 2 /\ startup_policy 3 0 = 1) /\
  (selected_order 1 w3 = Ok 1 /\ startup_policy 3 1 = 2) /\
  (selected_order 2 w3 = Ok 2 /\ startup_policy 3 2 = 3) /\
  (selected_order 3 w3 = Ok 3 /\ startup_policy 3 3 = 3) /\
  (selected_order 0 w1 = Raise IndexError /\ startup_policy 1 0 = 1) /\
  fst (step 0 None w1) = Raise IndexError /\
  heap (snd (step 0 None w1)) = heap w1.
Proof. vm_compute. repeat split; reflexivity. Qed.

(** ** Runs and the noise schedule *)

Section Runs.
Context `{B : Backend}.
Implicit Types (w : world) (s : solver).

Lemma getitem_in_range {A : Type} (l : list A) (i : Z) :
  0 <= i < Z.of_nat (length l) -> exists x, getitem l i = Ok x.
Proof.
  intros Hi. destruct (lookup_lt_is_Some_2 l (Z.to_nat i)) as [x Hx]; [lia|].
  exists x. apply getitem_nonneg; [lia|done].
Qed.

(** A step whose sample exists, whose solver exists and whose solve
    returns: it commits, and then returns or raises the noise assertion. *)
Lemma step_commits iter control w :
  ready w -> solve_never_fails ->
  0 <= iter -> 2 <= k w \/ 1 <= iter ->
  noise_idx w < Z.of_nat (length (noise w)) ->
  exists x s fl q',
    getitem (noise w) (noise_idx w) = Ok x /\
    delegated s (forced control x w) fl = Solved q' /\
    step iter control w =
      (if noise_idx w + 1 <? Z.of_nat (length (noise w)) then Ok (flow w)
       else Raise out_of_noise,
       commit (fst q') (solved s q' fl (forced control x w))).
Proof.
  intros Hr Hsolve Hiter Hk Hidx.
  destruct (getitem_in_range (noise w) (noise_idx w)) as [x Hx];
    [pose proof (ready_cursor w Hr); lia|].
  destruct (select_solver_ok (forced control x w) iter) as [s Hs];
    [by apply ready_forced|done|done|].
  pose proof (step_classified iter control w Hr) as Hout.
  destruct (step iter control w) as [r w'].
  inversion Hout as [Hx'|x' Hx' Hs'|x' s' fl q' Hx' Hs' _ _ Hd'
                    |x' s' fl q' Hx' Hs' _ _ Hd' Hlt|x' s' fl q' Hx' Hs' _ _ Hd' Hge];
    subst; simpl in *; rewrite Hx in Hx'; try discriminate Hx';
    injection Hx' as <-.
  - rewrite Hs in Hs'. discriminate Hs'.
  - destruct (Hsolve (s_stab s') (s_alpha s') (s_h s')
        (lincomb (s_beta_BDF s') (u_prev w)) (lincomb (s_beta_EXT s') (u_prev w))
        x (q fl) (model fl)) as [q'' Hq].
    unfold delegated in Hd'. cbn in Hd'. rewrite Hq in Hd'. discriminate Hd'.
  - exists x, s', fl, q'. split; [done|]. split; [done|]. subst r w'.
    by destruct (Z.ltb_spec (noise_idx w + 1) (Z.of_nat (length (noise w)))); [|lia].
  - exists x, s', fl, q'. split; [done|]. split; [done|]. subst r w'.
    by destruct (Z.ltb_spec (noise_idx w + 1) (Z.of_nat (length (noise w)))); [lia|].
Qed.

Lemma commit_ready iter control w x s fl q' :
  ready w ->
  step iter control w =
    (Ok (flow w), commit (fst q') (solved s q' fl (forced control x w))) ->
  ready (commit (fst q') (solved s q' fl (forced control x w))).
Proof.
  intros Hr Hstep. eapply step_outcome_ready; [exact Hr|].
  by apply step_outcome_of.
Qed.

(** Steps [j], ..., [j + n - 1] all return when the noise holds [n]
    samples and one more from the cursor on. *)
Lemma steps_return (controller : Z -> option Control) :
  solve_never_fails ->
  forall (n j : nat) w,
    ready w -> 2 <= k w \/ (1 <= j)%nat ->
    noise_idx w + Z.of_nat n < Z.of_nat (length (noise w)) ->
    exists w',
      for_each (Z.of_nat <$> seq j n)
        (fun iter => step iter (controller iter);; mret tt) w = (Ok tt, w') /\
      ready w' /\ noise_idx w' = noise_idx w + Z.of_nat n /\
      noise w' = noise w /\ k w' = k w /\ dt w' = dt w /\
      (t w' == t w + inject_Z (Z.of_nat n) * dt w)%Q.
Proof.
  intros Hsolve n. induction n as [|n IH]; intros j w Hr Hk Hidx.
  - exists w. split; [done|]. split; [done|]. split; [simpl; lia|].
    do 3 (split; [done|]). simpl. ring.
  - cbn [seq fmap list_fmap for_each].
    destruct (step_commits (Z.of_nat j) (controller (Z.of_nat j)) w)
      as (x & s & fl & q' & Hx & Hd & Hstep); try done; try lia.
    destruct (Z.ltb_spec (noise_idx w + 1) (Z.of_nat (length (noise w)))); [|lia].
    pose proof (commit_ready _ _ _ _ _ _ _ Hr Hstep) as Hr1.
    rewrite (bind_ok _ _ _ _ _ (bind_ok _ _ _ _ _ Hstep)).
    destruct (IH (S j) _ Hr1) as (w' & Hrun & Hr' & Hi' & Hn' & Hk' & Hdt' & Ht');
      [right; lia|cbn; lia|].
    exists w'. split; [exact Hrun|]. split; [done|].
    cbn in Hi', Hn', Hk', Hdt', Ht'.
    split; [lia|]. do 3 (split; [done|]).
    rewrite Ht'. rewrite Nat2Z.inj_succ, <- Z.add_1_r, inject_Z_plus. ring.
Qed.

End Runs.

(** C2, as the code has it. A ready controller of order at least 2 whose
    cursor is at the start of a schedule of [N >= 1] samples, and whose
    solves return, completes [N - 1] steps. Its [N]-th step draws the last
    sample, solves, rotates the history, advances the clock and the cursor
    and then raises the noise assertion. Any step after that raises
    [IndexError] on its draw, before any solve, and changes nothing. *)
Theorem noise_schedule_exhaustion `{B : Backend} (w : world)
    (controller : Z -> option Control) (N : nat) :
  ready w -> solve_never_fails -> 2 <= k w ->
  noise_idx w = 0 -> length (noise w) = S N ->
  exists w1 w2 last,
    run (Z.of_nat N) controller w = (Ok tt, w1) /\
    noise_idx w1 = Z.of_nat N /\
    step (Z.of_nat N) (controller (Z.of_nat N)) w1 = (Raise out_of_noise, w2) /\
    noise w !! N = Some last /\ eta w2 = last /\
    noise_idx w2 = Z.of_nat (S N) /\
    t w2 = (t w1 + dt w1)%Q /\
    (exists y, u_prev w2 = y :: removelast (u_prev w1)) /\
    forall iter control, step iter control w2 = (Raise IndexError, w2).
Proof.
  intros Hr Hsolve Hk Hidx Hlen.
  destruct (steps_return controller Hsolve N 0%nat w Hr) as
    (w1 & Hrun & Hr1 & Hi1 & Hn1 & Hk1 & _); [by left|lia|].
  destruct (step_commits (Z.of_nat N) (controller (Z.of_nat N)) w1)
    as (x & s & fl & q' & Hx & Hd & Hstep);
    [done|done|lia|left; lia|rewrite Hi1, Hn1, Hlen; lia|].
  destruct (Z.ltb_spec (noise_idx w1 + 1) (Z.of_nat (length (noise w1))));
    [rewrite Hi1, Hn1, Hlen in *; lia|].
  exists w1. eexists. exists x. split; [unfold run; by rewrite range_seq|].
  split; [lia|]. split; [exact Hstep|].
  split.
  { rewrite Hi1, Hidx, Hn1 in Hx. apply getitem_lookup in Hx as Hj.
    unfold getitem, slot in Hx. rewrite py_index_nonneg in Hx by lia.
    simpl in Hx. replace (Z.to_nat (0 + Z.of_nat N)) with N in Hx by lia.
    destruct (noise w !! N); [by injection Hx as ->|done]. }
  split; [done|]. split; [cbn; lia|]. split; [done|]. split; [by eexists|].
  intros iter control.
  set (w2 := commit _ _).
  assert (ready w2) as Hr2.
  { eapply step_outcome_ready; [exact Hr1|]. by apply step_outcome_of. }
  pose proof (step_classified iter control w2 Hr2) as Hout.
  assert (getitem (noise w2) (noise_idx w2) = Raise IndexError) as Hno.
  { apply getitem_out. right. cbn. lia. }
  destruct (step iter control w2) as [r w'].
  inversion Hout; subst; simpl in *; congruence.
Qed.

(** ** The claims on the scalar backend *)

Lemma bench_never_fails : @solve_never_fails (Bench.scalar Bench.never).
Proof. intros st a h u_BDF w e q0 m. eexists. reflexivity. Qed.

Lemma noise_schedule_exhaustion_witness :
  let w := Bench.controller Bench.never 2 [1; 1; 1]%Q in
  exists w1 w2 last,
    run 2 (Bench.no_control Bench.never) w = (Ok tt, w1) /\
    noise_idx w1 = 2 /\
    step 2 None w1 = (Raise out_of_noise, w2) /\
    noise w !! 2%nat = Some last /\ eta w2 = last /\
    noise_idx w2 = 3 /\
    t w2 = (t w1 + dt w1)%Q /\
    (exists y, u_prev w2 = y :: removelast (u_prev w1)) /\
    forall iter control, step iter control w2 = (Raise IndexError, w2).
Proof.
  intros w.
  apply (@noise_schedule_exhaustion (Bench.scalar Bench.never) w
           (Bench.no_control Bench.never) 2).
  - apply bench_ready. lia.
  - apply bench_never_fails.
  - vm_compute. discriminate.
  - reflexivity.
  - reflexivity.
Defined.

(** C2 as stated fails: over two samples the second step raises the noise
    assertion, and it has solved before raising. *)
Lemma noise_two_samples_one_step :
  let w := Bench.controller Bench.never 2 [1; 1]%Q in
  let run1 := run 1 (Bench.no_control Bench.never) w in
  let run2 := run 2 (Bench.no_control Bench.never) w in
  ~ (exists w', run2 = (Ok tt, w')) /\
  fst run1 = Ok tt /\
  fst run2 = Raise out_of_noise /\
  heap (snd run2) !! Bench.the_flow <> heap (snd run1) !! Bench.the_flow.
Proof.
  intros w run1 run2.
  assert (fst run2 = Raise out_of_noise) as H2 by (vm_compute; reflexivity).
  split; [|split; [vm_compute; reflexivity|split; [exact H2|]]].
  - intros [w' Hw']. rewrite Hw' in H2. discriminate H2.
  - vm_compute. discriminate.
Qed.

Lemma failed_step_state_witness :
  let w := Bench.controller Bench.negative 3 [-1; 0]%Q in
  let w' := snd (step 0 None w) in
  (LinearSolveError <> out_of_noise /\
   u_prev w' = u_prev w /\ t w' = t w /\ noise_idx w' = noise_idx w) \/
  (LinearSolveError = out_of_noise /\
   (exists y, u_prev w' = y :: removelast (u_prev w)) /\
   t w' = (t w + dt w)%Q /\ noise_idx w' = noise_idx w + 1).
Proof.
  intros w w'.
  apply (@failed_step_state (Bench.scalar Bench.negative) w 0 None
           LinearSolveError w').
  - apply bench_ready. lia.
  - vm_compute. reflexivity.
Defined.

(** C3 as stated fails: the step that raises the noise assertion has
    rotated the history and advanced the clock and the cursor. *)
Lemma noise_assertion_after_commit :
  let w := Bench.controller Bench.never 2 [1]%Q in
  ~ (forall e w', step 0 None w = (Raise e, w') ->
       u_prev w' = u_prev w /\ t w' = t w /\ noise_idx w' = noise_idx w).
Proof.
  intros w H.
  destruct (H out_of_noise (snd (step 0 None w))) as (_ & _ & Hidx).
  - vm_compute. reflexivity.
  - vm_compute in Hidx. discriminate Hidx.
Qed.

(** The solve fails on the third step of a run of ten: the run stops
    there, with the history, the clock and the cursor of two steps. *)
Example solve_fails_on_third_step :
  let w := Bench.controller Bench.negative 3 [0; 0; -1; 0; 0; 0; 0; 0; 0; 0; 0]%Q in
  let after2 := snd (run 2 (Bench.no_control Bench.negative) w) in
  let stopped := run 10 (Bench.no_control Bench.negative) w in
  fst stopped = Raise LinearSolveError /\
  u_prev (snd stopped) = u_prev after2 /\
  t (snd stopped) = t after2 /\
  noise_idx (snd stopped) = 2 /\
  eta (snd stopped) = (-1)%Q.
Proof. vm_compute. repeat split; reflexivity. Qed.

Lemma step_returns_flow_itself_witness :
  let w := Bench.controller Bench.never 2 [1; 1; 1]%Q in
  fst (step 0 None w) = Ok (flow w) /\
  forall l, l <> flow w -> heap (snd (step 0 None w)) !! l = heap w !! l.
Proof.
  intros w.
  destruct (@step_returns_flow_itself (Bench.scalar Bench.never) w 0 None
              Bench.the_flow (snd (step 0 None w))) as (Hr & _ & _ & Hother & _).
  - apply bench_ready. lia.
  - vm_compute. reflexivity.
  - split; [vm_compute; reflexivity|]. intros l Hl. apply Hother. exact Hl.
Defined.

Lemma solve_failure_keeps_forcing_witness :
  let w := Bench.controller Bench.negative 2 [-1; 0]%Q in
  let w' := snd (@step (Bench.scalar Bench.negative) 0 (Some 5%Q) w) in
  exists (x : Q) fl fl',
    getitem (noise w) (noise_idx w) = Ok x /\ eta w' = x /\
    heap w !! flow w = Some fl /\ heap w' !! flow w = Some fl' /\
    model fl' =
      @set_control (Bench.scalar Bench.negative)
        (fst (@update_actuators (Bench.scalar Bench.negative) 5%Q (dt w) (model fl)))
        (snd (@update_actuators (Bench.scalar Bench.negative) 5%Q (dt w) (model fl))).
Proof.
  intros w w'.
  apply (@solve_failure_keeps_forcing (Bench.scalar Bench.negative) w 0
           (Some 5%Q) w').
  - apply bench_ready. lia.
  - vm_compute. reflexivity.
Defined.

(** * Further properties of the time stepper *)

Section Operators.
Context `{B : Backend}.
Implicit Types (w : world) (s : solver).

(** X1. For an order in [1..3], [initialize_operators] returns with the
    steady solver of order [k] and the start-up solvers of orders
    [1, ..., k-1] in this order, each bound to the controller's flow, step
    size, stabilization and coefficient row; it initializes the boundary
    conditions of the flow and leaves the solution, the history, the clock
    and the cursor as they were. *)
Theorem operators_built w st fl :
  StabilizationType w = Some st ->
  heap w !! flow w = Some fl ->
  1 <= k w <= 3 ->
  exists w' ps,
    initialize_operators w = (Ok tt, w') /\
    petsc_solver w' = Some ps /\ solver_of w (k w) ps /\
    s_order <$> startup_solvers w' = (fun i => i + 1) <$> range (k w - 1) /\
    (forall s, s ∈ startup_solvers w' -> solver_of w (s_order s) s) /\
    heap w' = <[flow w := FlowObj (q fl) (init_bcs (model fl))]> (heap w) /\
    u_prev w' = u_prev w /\ t w' = t w /\ noise_idx w' = noise_idx w /\
    k w' = k w.
Proof.
  intros Hst Hfl Hk.
  destruct (initialize_operators_run w st fl Hst Hfl Hk)
    as (ps & ss & Hrun & Hps & Hlen & Hss).
  eexists _, ps. split; [exact Hrun|]. cbn.
  split; [done|]. split; [done|]. split; [|split; [|done]].
  - assert (k w = 1 \/ k w = 2 \/ k w = 3) as [Hk1|[Hk1|Hk1]] by lia;
      rewrite Hk1 in *.
    + by destruct ss.
    + destruct ss as [|s0 [|s1 ss]]; try done.
      destruct (Hss 0%nat s0 eq_refl) as [H0 _]. simpl in H0.
      change (range (2 - 1)) with [0]. simpl. by rewrite H0.
    + destruct ss as [|s0 [|s1 [|s2 ss]]]; try done.
      destruct (Hss 0%nat s0 eq_refl) as [H0 _].
      destruct (Hss 1%nat s1 eq_refl) as [H1 _]. simpl in H0, H1.
      change (range (3 - 1)) with [0; 1]. simpl. by rewrite H0, H1.
  - intros s Hs. apply list_elem_of_lookup in Hs as [i Hi].
    pose proof (Hss i s Hi) as Hof. destruct Hof as [Ho Hrest].
    split; [done|]. by rewrite Ho.
Qed.

(** X2. For an order above 3 or below -2, [initialize_operators] raises
    [IndexError] at the first table read; the boundary conditions of the
    flow have been initialized by then, and no solver has been stored. *)
Theorem operators_unsupported_order w fl :
  heap w !! flow w = Some fl ->
  k w > 3 \/ k w < -2 ->
  initialize_operators w =
    (Raise IndexError,
     set_heap (<[flow w := FlowObj (q fl) (init_bcs (model fl))]> (heap w)) w).
Proof.
  intros Hfl Hk. unfold initialize_operators.
  rewrite bind_get.
  rewrite (bind_ok _ _ w w fl) by (unfold deref; by rewrite Hfl).
  unfold update_flow. rewrite bind_modify.
  apply bind_raise.
  unfold _make_order_k_solver. rewrite bind_get.
  apply bind_raise. unfold lift.
  unfold coefficients. rewrite (getitem_out _beta_EXT); [done|simpl; lia].
Qed.

End Operators.

Lemma operators_built_witness :
  let w := @set_StabilizationType (Bench.scalar Bench.never) 0%nat
             (@set_k (Bench.scalar Bench.never) 3 (Bench.blank Bench.never)) in
  exists w' ps,
    initialize_operators w = (Ok tt, w') /\
    petsc_solver w' = Some ps /\ solver_of w 3 ps /\
    s_order <$> startup_solvers w' = [1; 2] /\
    (forall s, s ∈ startup_solvers w' -> solver_of w (s_order s) s) /\
    heap w' = <[flow w := @FlowObj (Bench.scalar Bench.never) (1%Q, tt) (0%Q, 0%Q)]> (heap w) /\
    u_prev w' = u_prev w /\ t w' = t w /\ noise_idx w' = noise_idx w /\
    k w' = k w.
Proof.
  intros w.
  apply (@operators_built (Bench.scalar Bench.never) w 0%nat
           (@FlowObj (Bench.scalar Bench.never) (1%Q, tt) (0%Q, 0%Q))).
  - reflexivity.
  - reflexivity.
  - vm_compute. split; discriminate.
Defined.

Lemma operators_unsupported_order_witness :
  let w := @set_StabilizationType (Bench.scalar Bench.never) 0%nat
             (@set_k (Bench.scalar Bench.never) 4 (Bench.blank Bench.never)) in
  fst (initialize_operators w) = Raise IndexError /\
  petsc_solver (snd (initialize_operators w)) = None.
Proof.
  intros w.
  rewrite (@operators_unsupported_order (Bench.scalar Bench.never) w
             (@FlowObj (Bench.scalar Bench.never) (1%Q, tt) (0%Q, 0%Q))).
  - split; reflexivity.
  - reflexivity.
  - left. vm_compute. reflexivity.
Defined.

Section StepProperties.
Context `{B : Backend}.
Implicit Types (w : world) (s : solver).

Lemma step_outcome_frame iter control w r w' :
  step_outcome iter control w r w' ->
  k w' = k w /\ dt w' = dt w /\ noise w' = noise w /\ flow w' = flow w /\
  StabilizationType w' = StabilizationType w /\
  petsc_solver w' = petsc_solver w /\ startup_solvers w' = startup_solvers w.
Proof. by intros []. Qed.

(** X3. Whatever way a step of a ready controller ends, the controller is
    ready afterwards, and the step has not changed the order, the step
    size, the noise schedule, the flow handle, the stabilization or any
    solver; the history keeps its length. *)
Theorem step_keeps_ready w iter control :
  ready w ->
  ready (snd (step iter control w)) /\
  k (snd (step iter control w)) = k w /\
  dt (snd (step iter control w)) = dt w /\
  noise (snd (step iter control w)) = noise w /\
  flow (snd (step iter control w)) = flow w /\
  StabilizationType (snd (step iter control w)) = StabilizationType w /\
  petsc_solver (snd (step iter control w)) = petsc_solver w /\
  startup_solvers (snd (step iter control w)) = startup_solvers w /\
  length (u_prev (snd (step iter control w))) = length (u_prev w).
Proof.
  intros Hr. pose proof (step_classified iter control w Hr) as Hout.
  pose proof (step_outcome_ready _ _ _ _ _ Hr Hout) as Hr'.
  destruct (step_outcome_frame _ _ _ _ _ Hout)
    as (Hk & Hdt & Hn & Hf & Hst & Hp & Hs).
  do 8 (split; [done|]).
  by rewrite (ready_history _ Hr'), (ready_history _ Hr), Hk.
Qed.

(** X4. A step that returns has made the sample at the old cursor the
    forcing amplitude, moved the cursor on by one to a position that is
    still inside the schedule, advanced the clock by [dt], and put the
    velocity of the flow's new solution in front of the history, whose
    other entries are the old ones without the oldest. *)
Theorem returning_step_commits w iter control r w' :
  ready w ->
  step iter control w = (Ok r, w') ->
  exists x fl',
    getitem (noise w) (noise_idx w) = Ok x /\ eta w' = x /\
    noise_idx w' = noise_idx w + 1 /\
    0 <= noise_idx w' < Z.of_nat (length (noise w')) /\
    t w' = (t w + dt w)%Q /\
    heap w' !! flow w' = Some fl' /\
    u_prev w' = fst (q fl') :: removelast (u_prev w).
Proof.
  intros Hr Hstep. apply step_outcome_of in Hstep; [|done].
  inversion Hstep as [| | |x s fl q' Hx Hsel Hsf Hfl Hd Hlt|]; subst.
  exists x, (FlowObj q' (model fl)). split; [done|]. split; [done|].
  split; [done|]. split; [cbn; pose proof (ready_cursor w Hr); lia|].
  split; [done|]. split; [|done].
  unfold solved. cbn. by rewrite Hsf, lookup_insert_eq.
Qed.

(** X5. A step without control input never changes the actuators and
    boundary conditions of the flow, however it ends, and never touches
    another object of the store. *)
Theorem step_without_control_keeps_model w iter r w' fl :
  ready w ->
  heap w !! flow w = Some fl ->
  step iter None w = (r, w') ->
  (exists fl', heap w' !! flow w = Some fl' /\ model fl' = model fl) /\
  (forall l, l <> flow w -> heap w' !! l = heap w !! l).
Proof.
  intros Hr Hfl Hstep. apply step_outcome_of in Hstep; [|done].
  inversion Hstep as [|x ? ?|x s fl1 q' Hx Hsel Hsf Hfl1 Hd
                     |x s fl1 q' Hx Hsel Hsf Hfl1 Hd Hlt
                     |x s fl1 q' Hx Hsel Hsf Hfl1 Hd Hge]; subst;
    try (cbn in Hfl1; rewrite Hfl in Hfl1; injection Hfl1 as <-).
  - split; [by exists fl|done].
  - split; [by exists fl|done].
  - split.
    + exists (FlowObj q' (model fl)). split; [|done].
      unfold solved. cbn. by rewrite Hsf, lookup_insert_eq.
    + intros l Hl. unfold solved. cbn. by rewrite Hsf, lookup_insert_ne.
  - split.
    + exists (FlowObj q' (model fl)). split; [|done].
      unfold solved. cbn. by rewrite Hsf, lookup_insert_eq.
    + intros l Hl. unfold solved. cbn. by rewrite Hsf, lookup_insert_ne.
  - split.
    + exists (FlowObj q' (model fl)). split; [|done].
      unfold solved. cbn. by rewrite Hsf, lookup_insert_eq.
    + intros l Hl. unfold solved. cbn. by rewrite Hsf, lookup_insert_ne.
Qed.

(** X6. A step whose cursor is at or past the end of the noise schedule
    raises [IndexError] on the read of the sample and changes nothing: no
    forcing, no actuation, no solve. *)
Theorem step_out_of_samples w iter control :
  ready w ->
  Z.of_nat (length (noise w)) <= noise_idx w ->
  step iter control w = (Raise IndexError, w).
Proof.
  intros Hr Hidx. unfold step. apply bind_raise, force_no_sample.
  apply getitem_out. by right.
Qed.

(** X7. For every step index from 1 on, the step solves with the solver
    of order [min(iter, k)]: the start-up solver of order [iter] while
    [iter <= k - 1], the steady solver of order [k] from [iter = k] on. *)
Theorem dispatch_from_one w iter :
  ready w -> 1 <= iter ->
  selected_order iter w = Ok (Z.min iter (k w)) /\
  (iter > k w - 1 ->
   fst (select_solver iter w) = (match petsc_solver w with
                                 | Some ps => Ok ps
                                 | None => Raise (AttributeError "petsc_solver")
                                 end)) /\
  (iter <= k w - 1 ->
   exists s, startup_solvers w !! Z.to_nat (iter - 1) = Some s /\
             fst (select_solver iter w) = Ok s).
Proof.
  intros Hr Hi. split; [|split].
  - rewrite select_solver_policy by (done || lia).
    destruct (Z.gtb_spec iter (k w - 1)).
    + f_equal. lia.
    + destruct (Z.eqb_spec iter 0); [lia|]. f_equal. lia.
  - intros Hgt. unfold select_solver, mbind, M_bind, get, attr.
    destruct (Z.gtb_spec iter (k w - 1)); [|lia].
    by destruct (petsc_solver w).
  - intros Hle.
    destruct (lookup_lt_is_Some_2 (startup_solvers w) (Z.to_nat (iter - 1)))
      as [s Hs]; [rewrite (ready_startup_length w Hr); lia|].
    exists s. split; [done|].
    unfold select_solver, mbind, M_bind, get, lift.
    destruct (Z.gtb_spec iter (k w - 1)); [lia|].
    simpl. apply getitem_nonneg; [lia|done].
Qed.


End StepProperties.

Lemma step_keeps_ready_witness :
  let w := Bench.controller Bench.negative 3 [-1; 0]%Q in
  ready (snd (step 0 None w)) /\ k (snd (step 0 None w)) = 3.
Proof.
  intros w.
  destruct (@step_keeps_ready (Bench.scalar Bench.negative) w 0 None)
    as (Hr & Hk & _).
  - apply bench_ready. lia.
  - split; [exact Hr|]. rewrite Hk. reflexivity.
Defined.

Lemma returning_step_commits_witness :
  let w := Bench.controller Bench.never 2 [1; 1; 1]%Q in
  let w' := snd (step 0 None w) in
  exists (x : Q) fl',
    getitem (noise w) (noise_idx w) = Ok x /\ eta w' = x /\
    noise_idx w' = noise_idx w + 1 /\
    0 <= noise_idx w' < Z.of_nat (length (noise w')) /\
    t w' = (t w + dt w)%Q /\
    heap w' !! flow w' = Some fl' /\
    u_prev w' = fst (q fl') :: removelast (u_prev w).
Proof.
  intros w w'.
  apply (@returning_step_commits (Bench.scalar Bench.never) w 0 None
           Bench.the_flow w').
  - apply bench_ready. lia.
  - vm_compute. reflexivity.
Defined.

Lemma step_without_control_keeps_model_witness :
  let w := Bench.controller Bench.never 2 [1; 1; 1]%Q in
  exists fl', heap (snd (step 0 None w)) !! flow w = Some fl' /\
              model fl' = (0%Q, 0%Q).
Proof.
  intros w.
  apply (@step_without_control_keeps_model (Bench.scalar Bench.never) w 0
           (fst (step 0 None w)) (snd (step 0 None w))
           (@FlowObj (Bench.scalar Bench.never) (1%Q, tt) (0%Q, 0%Q))).
  - apply bench_ready. lia.
  - reflexivity.
  - vm_compute. reflexivity.
Defined.

Lemma step_out_of_samples_witness :
  let w := Bench.controller Bench.never 2 []%Q in
  step 0 None w = (Raise IndexError, w).
Proof.
  intros w.
  apply (@step_out_of_samples (Bench.scalar Bench.never) w 0 None).
  - apply bench_ready. lia.
  - vm_compute. discriminate.
Defined.

Lemma dispatch_from_one_witness :
  let w := Bench.controller Bench.never 3 [1; 1; 1]%Q in
  selected_order 2 w = Ok (Z.min 2 (k w)).
Proof.
  intros w.
  apply (@dispatch_from_one (Bench.scalar Bench.never) w 2).
  - apply bench_ready. lia.
  - lia.
Defined.


(** ** Accuracy of the coefficient rows *)

Section Accuracy.

Lemma wind_scalar_run (o : Z) (u0 u1 u2 : Q) :
  1 <= o <= 3 ->
  exists r : Q,
    @wind (Bench.scalar Bench.never) o [u0; u1; u2] = Ok r /\
    (r == if o =? 1 then u0
          else if o =? 2 then 2 * u0 - u1
          else 3 * u0 - 3 * u1 + u2)%Q.
Proof.
  intros Ho. assert (o = 1 \/ o = 2 \/ o = 3) as [->|[->| ->]] by lia.
  - exists (0 + 1.0 * u0)%Q. split; [reflexivity|]. simpl. ring.
  - exists (0 + 2.0 * u0 + -1.0 * u1)%Q. split; [reflexivity|]. simpl. ring.
  - exists (0 + 3.0 * u0 + -3.0 * u1 + 1.0 * u2)%Q.
    split; [reflexivity|]. simpl. ring.
Qed.


End Accuracy.

(** X9. The wind of order [o] is exact one step ahead on polynomials of
    degree below [o]: on the values a polynomial with at most [o]
    coefficients takes at [t], [t - h] and [t - 2h], it is the value of
    the polynomial at [t + h]. *)
Theorem wind_exact_on_polynomials (o : Z) (cs : list Q) (t h : Q) :
  1 <= o <= 3 ->
  (length cs <= Z.to_nat o)%nat ->
  exists r : Q,
    @wind (Bench.scalar Bench.never) o (sampled cs t h) = Ok r /\
    (r == poly cs (t + h))%Q.
Proof.
  intros Ho Hlen.
  destruct (wind_scalar_run o (poly cs t) (poly cs (t - h)) (poly cs (t - 2 * h)) Ho)
    as (r & Hr & Heq).
  exists r. split; [exact Hr|]. rewrite Heq. clear Hr Heq.
  assert (o = 1 \/ o = 2 \/ o = 3) as [->|[->| ->]] by lia; simpl in Hlen |- *.
  - destruct cs as [|c0 [|c1 cs]]; simpl in *; try lia; ring.
  - destruct cs as [|c0 [|c1 [|c2 cs]]]; simpl in *; try lia; ring.
  - destruct cs as [|c0 [|c1 [|c2 [|c3 cs]]]]; simpl in *; try lia; ring.
Qed.


Lemma wind_exact_on_polynomials_witness :
  exists r : Q,
    @wind (Bench.scalar Bench.never) 3 (sampled [1; 2; 3]%Q 5 (1 # 10)) = Ok r /\
    (r == poly [1; 2; 3]%Q (5 + (1 # 10)))%Q.
Proof.
  apply (wind_exact_on_polynomials 3 [1; 2; 3]%Q 5 (1 # 10)).
  - lia.
  - simpl. lia.
Defined.


(** ** The cylinder flow *)

Section CylinderControl.
Import Cylinder.
Context {Field : Type} (project_u_tan : Q -> space -> Field).

Lemma Qle_bool_false (a b : Q) : Qle_bool a b = false -> (b < a)%Q.
Proof.
  intros H. apply Qnot_le_lt. intros Hle. apply Qle_bool_iff in Hle. congruence.
Qed.

Lemma py_min_cases (a b : Q) :
  (a <= b /\ py_min a b = a)%Q \/ (b < a /\ py_min a b = b)%Q.
Proof.
  unfold py_min. destruct (Qle_bool a b) eqn:H.
  - left. by apply Qle_bool_iff in H.
  - right. split; [|done]. apply Qnot_le_lt. intros Hle.
    apply Qle_bool_iff in Hle. congruence.
Qed.

Lemma py_max_cases (a b : Q) :
  (b <= a /\ py_max a b = a)%Q \/ (a < b /\ py_max a b = b)%Q.
Proof.
  unfold py_max. destruct (Qle_bool b a) eqn:H.
  - left. by apply Qle_bool_iff in H.
  - right. split; [|done]. apply Qnot_le_lt. intros Hle.
    apply Qle_bool_iff in Hle. congruence.
Qed.

Lemma perform_controlled (c : cylinder (Field := Field)) (op : call) :
  controlled project_u_tan c -> controlled project_u_tan (perform project_u_tan c op).
Proof.
  intros [(H1 & H2 & H3 & H4)|(V & Q & V' & H1 & H2 & H3 & H4)].
  - destruct op as [mixed|omega|]; simpl.
    + right. unfold init_bcs. destruct (function_spaces mixed) as [V Q].
      by exists V, Q, V.
    + left. unfold update_control. simpl. by rewrite H3.
    + left. unfold reset_control, update_control. simpl. by rewrite H3.
  - destruct op as [mixed|omega|]; simpl.
    + right. unfold init_bcs. destruct (function_spaces mixed) as [V0 Q0].
      by exists V0, Q0, V0.
    + right. unfold update_control. simpl. rewrite H3. simpl.
      by exists V, Q, velocity_space.
    + right. unfold reset_control, update_control. simpl. rewrite H3. simpl.
      by exists V, Q, velocity_space.
Qed.

Lemma perform_initialized (c : cylinder) (op : call) :
  is_Some (bcu_cylinder c) ->
  is_Some (bcu_cylinder (perform project_u_tan c op)).
Proof.
  intros [b Hb]. destruct op as [mixed|omega|]; simpl.
  - unfold init_bcs. by destruct (function_spaces mixed).
  - unfold update_control. simpl. by rewrite Hb.
  - unfold reset_control, update_control. simpl. by rewrite Hb.
Qed.

Lemma perform_uninitialized (c : cylinder) (op : call) :
  is_init_bcs op = false -> bcu_cylinder c = None ->
  bcu_cylinder (perform project_u_tan c op) = None.
Proof.
  intros Hop Hc. destruct op as [mixed|omega|]; simpl; [done|..].
  - unfold update_control. simpl. by rewrite Hc.
  - unfold reset_control, update_control. simpl. by rewrite Hc.
Qed.

Lemma calls_controlled (ops : list call) (c : cylinder) :
  controlled project_u_tan c ->
  controlled project_u_tan (foldl (perform project_u_tan) c ops).
Proof.
  revert c. induction ops as [|op ops IH]; intros c Hc; simpl; [done|].
  by apply IH, perform_controlled.
Qed.

Lemma calls_initialized (ops : list call) (c : cylinder) :
  is_Some (bcu_cylinder c) ->
  is_Some (bcu_cylinder (foldl (perform project_u_tan) c ops)).
Proof.
  revert c. induction ops as [|op ops IH]; intros c Hc; simpl; [done|].
  by apply IH, perform_initialized.
Qed.

Lemma calls_uninitialized (ops : list call) (c : cylinder) :
  existsb is_init_bcs ops = false -> bcu_cylinder c = None ->
  bcu_cylinder (foldl (perform project_u_tan) c ops) = None.
Proof.
  revert c. induction ops as [|op ops IH]; intros c Hops Hc; simpl; [done|].
  simpl in Hops. apply orb_false_iff in Hops as [Hop Hops].
  by apply IH, perform_uninitialized.
Qed.

End CylinderControl.

Lemma clamp_cases (MAX_CONTROL u : Q) :
  (0 <= MAX_CONTROL)%Q ->
  (MAX_CONTROL <= u /\ Cylinder.clamp MAX_CONTROL u == MAX_CONTROL)%Q \/
  (u <= - MAX_CONTROL /\ Cylinder.clamp MAX_CONTROL u == - MAX_CONTROL)%Q \/
  (- MAX_CONTROL < u /\ u < MAX_CONTROL /\ Cylinder.clamp MAX_CONTROL u = u)%Q.
Proof.
  intros HM. unfold Cylinder.clamp.
  destruct (py_min_cases MAX_CONTROL u) as [[H1 ->]|[H1 ->]].
  - left. split; [done|].
    destruct (py_max_cases (- MAX_CONTROL) MAX_CONTROL) as [[H2 ->]|[H2 ->]];
      [lra|reflexivity].
  - destruct (py_max_cases (- MAX_CONTROL) u) as [[H2 ->]|[H2 ->]].
    + right. left. split; [done|reflexivity].
    + right. right. done.
Qed.



(** X11. With a bound that is not negative, [clamp] returns a control
    inside [[-MAX_CONTROL, MAX_CONTROL]], gives back a control that is
    inside already, and clamping twice is clamping once. *)
Theorem clamp_bounds (MAX_CONTROL u : Q) :
  (0 <= MAX_CONTROL)%Q ->
  (- MAX_CONTROL <= Cylinder.clamp MAX_CONTROL u <= MAX_CONTROL)%Q /\
  ((- MAX_CONTROL <= u <= MAX_CONTROL)%Q -> Cylinder.clamp MAX_CONTROL u == u)%Q /\
  (Cylinder.clamp MAX_CONTROL (Cylinder.clamp MAX_CONTROL u)
   == Cylinder.clamp MAX_CONTROL u)%Q.
Proof.
  intros HM.
  assert (forall v,
    (- MAX_CONTROL <= Cylinder.clamp MAX_CONTROL v <= MAX_CONTROL)%Q) as Hb.
  { intros v. destruct (clamp_cases MAX_CONTROL v HM)
      as [[H1 H2]|[[H1 H2]|(H1 & H2 & H3)]]; [lra|lra|rewrite H3; lra]. }
  assert (forall v, (- MAX_CONTROL <= v <= MAX_CONTROL)%Q ->
                    (Cylinder.clamp MAX_CONTROL v == v)%Q) as Hid.
  { intros v Hv. destruct (clamp_cases MAX_CONTROL v HM)
      as [[H1 H2]|[[H1 H2]|(H1 & H2 & H3)]]; [lra|lra|by rewrite H3]. }
  split; [apply Hb|]. split; [apply Hid|]. apply Hid, Hb.
Qed.

Lemma clamp_bounds_witness :
  (- (3 # 2) <= Cylinder.clamp (3 # 2) 7 <= 3 # 2)%Q.
Proof.
  apply (clamp_bounds (3 # 2) 7). discriminate.
Defined.

(** X12. Through any sequence of [init_bcs], [update_control] and
    [reset_control] calls on a new cylinder flow, the boundary condition
    on the cylinder, once it exists, holds the tangential velocity of the
    current rotation rate. Until the first [init_bcs] no boundary
    condition exists, [update_control] only records the rate and
    [collect_bcs] raises [AttributeError]; from then on [collect_bcs]
    returns the inflow, freestream and cylinder conditions followed by the
    outflow condition. *)
Theorem control_tracks_rotation_rate {Field : Type}
    (project_u_tan : Q -> Cylinder.space -> Field) (ops : list Cylinder.call) :
  let c := foldl (Cylinder.perform project_u_tan) Cylinder.new_cylinder ops in
  if existsb Cylinder.is_init_bcs ops then
    exists V Q V',
      Cylinder.collect_bcs c =
        Ok [Cylinder.DirichletBC V Cylinder.U_inf Cylinder.INLET;
            Cylinder.DirichletBC V Cylinder.U_inf Cylinder.FREESTREAM;
            Cylinder.DirichletBC V
              (Cylinder.projected (project_u_tan (Cylinder.rotation_rate c) V'))
              Cylinder.CYLINDER;
            Cylinder.DirichletBC Q Cylinder.zero_pressure Cylinder.OUTLET]
  else
    Cylinder.collect_bcs c = Raise (AttributeError "bcu_inflow") /\
    Cylinder.bcu_cylinder c = None.
Proof.
  intros c.
  assert (Cylinder.controlled project_u_tan c) as Hc.
  { apply calls_controlled. left. done. }
  destruct (existsb Cylinder.is_init_bcs ops) eqn:Hops.
  - assert (is_Some (Cylinder.bcu_cylinder c)) as [b Hb].
    { subst c. clear Hc. revert Hops. generalize (@Cylinder.new_cylinder Field).
      induction ops as [|op ops IH]; intros c0 Hops; [done|].
      simpl in Hops |- *. destruct (Cylinder.is_init_bcs op) eqn:Hop.
      - apply calls_initialized. destruct op; try done. simpl.
        unfold Cylinder.init_bcs. by destruct (Cylinder.function_spaces mixed).
      - by apply IH. }
    destruct Hc as [(_ & _ & H3 & _)|(V & Q & V' & H1 & H2 & H3 & H4)];
      [congruence|].
    exists V, Q, V'. unfold Cylinder.collect_bcs, Cylinder.collect_bcu,
      Cylinder.collect_bcp. by rewrite H1, H2, H3, H4.
  - assert (Cylinder.bcu_cylinder c = None) as Hb
      by (by apply calls_uninitialized).
    destruct Hc as [(H1 & _ & _ & _)|(V & Q & V' & _ & _ & H3 & _)];
      [|congruence].
    split; [|done]. unfold Cylinder.collect_bcs, Cylinder.collect_bcu.
    by rewrite H1.
Qed.

(** ** The incremental pressure correction solver *)

Section IPCSProperties.
Context `{S : IPCS.Solves} {Callback : Type}.
Implicit Types (s : IPCS.solver (Callback := Callback)).

(** What a step does in each of its four ends. *)
Lemma ipcs_step_cases (iter : Z) s :
  let s' := snd (IPCS.step iter s) in
  IPCS.dt s' = IPCS.dt s /\ IPCS.callbacks s' = IPCS.callbacks s /\
  IPCS.time_varying_bc s' = IPCS.time_varying_bc s /\
  IPCS.flow_bcu s' = IPCS.flow_bcu s /\
  IPCS.t s' = (IPCS.t s + IPCS.dt s)%Q /\
  IPCS.bcu s' = (if IPCS.time_varying_bc s then IPCS.flow_bcu s else IPCS.bcu s) /\
  IPCS.bc_values s' = IPCS.bc_values s /\
  IPCS.A1 s' = (if IPCS.time_varying_bc s
                then IPCS.assemble_A1 (IPCS.flow_bcu s) (IPCS.bc_values s)
                else IPCS.A1 s) /\
  ((fst (IPCS.step iter s) = Some IPCS.ConvergenceError /\
    IPCS.u_n s' = IPCS.u_n s /\ IPCS.p_n s' = IPCS.p_n s /\
    IPCS.calls s' = IPCS.calls s) \/
   (fst (IPCS.step iter s) = None /\
    IPCS.u_n s' = IPCS.u s' /\ IPCS.p_n s' = IPCS.p s' /\
    IPCS.calls s' = IPCS.calls s ++
      ((fun cb => IPCS.Called cb iter (IPCS.t s') (IPCS.u s') (IPCS.p s'))
         <$> IPCS.callbacks s))).
Proof.
  unfold IPCS.step. destruct (IPCS.time_varying_bc s) eqn:Htv.
  all: destruct (IPCS.tentative_velocity _ _ _ _ _ _) as [u1 [|]]; simpl;
    [|do 8 (split; [by rewrite ?Htv|]); by left].
  all: destruct (IPCS.pressure_correction _ _ _) as [p2 [|]]; simpl;
    [|do 8 (split; [by rewrite ?Htv|]); by left].
  all: destruct (IPCS.velocity_correction _ _ _) as [u3 [|]]; simpl;
    [|do 8 (split; [by rewrite ?Htv|]); by left].
  all: do 8 (split; [by rewrite ?Htv|]); by right.
Qed.



End IPCSProperties.

Section IPCSClaims.
Context `{S : IPCS.Solves} {Callback : Type}.
Implicit Types (s : IPCS.solver (Callback := Callback)).

(** X13. A step that returns has advanced the clock by [dt], has made the
    previous solution equal to the new one, and has then called every
    callback once, in their order, with the step index, the new time and
    the new solution. *)
Theorem ipcs_step_returns (iter : Z) s s' :
  IPCS.step iter s = (None, s') ->
  IPCS.t s' = (IPCS.t s + IPCS.dt s)%Q /\
  IPCS.u_n s' = IPCS.u s' /\ IPCS.p_n s' = IPCS.p s' /\
  IPCS.calls s' = IPCS.calls s ++
    ((fun cb => IPCS.Called cb iter (IPCS.t s') (IPCS.u s') (IPCS.p s'))
       <$> IPCS.callbacks s) /\
  IPCS.dt s' = IPCS.dt s /\ IPCS.callbacks s' = IPCS.callbacks s.
Proof.
  intros Hstep. pose proof (ipcs_step_cases iter s) as H.
  rewrite Hstep in H. simpl in H.
  destruct H as (Hdt & Hcb & _ & _ & Ht & _ & _ & _ & [(Hr & _)|(_ & Hu & Hp & Hc)]);
    [discriminate Hr|done].
Qed.

(** X14. A step in which a solve raises has advanced the clock by [dt]
    all the same, and has neither updated the previous solution nor
    called any callback. *)
Theorem ipcs_step_raises (iter : Z) s e s' :
  IPCS.step iter s = (Some e, s') ->
  e = IPCS.ConvergenceError /\
  IPCS.t s' = (IPCS.t s + IPCS.dt s)%Q /\
  IPCS.u_n s' = IPCS.u_n s /\ IPCS.p_n s' = IPCS.p_n s /\
  IPCS.calls s' = IPCS.calls s.
Proof.
  intros Hstep. pose proof (ipcs_step_cases iter s) as H.
  rewrite Hstep in H. simpl in H.
  destruct H as (_ & _ & _ & _ & Ht & _ & _ & _ & [(Hr & Hu & Hp & Hc)|(Hr & _)]);
    [|discriminate Hr].
  by injection Hr as ->.
Qed.

Lemma ipcs_steps_bcs (iters : list Z) : forall s,
  let s' := snd (IPCS.steps iters s) in
  IPCS.time_varying_bc s' = IPCS.time_varying_bc s /\
  IPCS.flow_bcu s' = IPCS.flow_bcu s /\
  IPCS.bc_values s' = IPCS.bc_values s /\
  (IPCS.time_varying_bc s = false ->
   IPCS.bcu s' = IPCS.bcu s /\ IPCS.A1 s' = IPCS.A1 s) /\
  (IPCS.time_varying_bc s = true -> iters <> [] ->
   IPCS.bcu s' = IPCS.flow_bcu s /\
   IPCS.A1 s' = IPCS.assemble_A1 (IPCS.flow_bcu s) (IPCS.bc_values s)).
Proof.
  induction iters as [|iter iters IH]; intros s; simpl; [done|].
  pose proof (ipcs_step_cases iter s) as H.
  destruct (IPCS.step iter s) as [[e|] s1]; simpl in H |- *;
    destruct H as (_ & _ & Htv & Hfb & _ & Hb & Hv & Ha & _).
  - split; [done|]. split; [done|]. split; [done|].
    split; intros Hx; rewrite Hx in Hb, Ha; done.
  - destruct (IH s1) as (Htv' & Hfb' & Hv' & Hfix & Hvar).
    split; [congruence|]. split; [congruence|]. split; [congruence|]. split.
    + intros Hx. rewrite Hx in *. destruct (Hfix Htv) as [-> ->]. done.
    + intros Hx _. rewrite Hx in *. destruct iters as [|iter' iters].
      * simpl. done.
      * destruct (Hvar Htv) as [-> ->]; [done|]. by rewrite Hfb, Hv.
Qed.


(** X16. With [time_varying_bc] off, a [solve] never collects the
    velocity boundary conditions again and never assembles the matrix of
    the first solve again: the solver keeps the objects and the matrix it
    has, whatever the flow would collect now. With it on, a [solve] of at
    least one step leaves the solver with the boundary conditions the flow
    collects now and the matrix assembled with them. *)
Theorem ipcs_boundary_conditions (Tf : Q) s :
  let s' := snd (IPCS.solve Tf s) in
  (IPCS.time_varying_bc s = false ->
   IPCS.bcu s' = IPCS.bcu s /\ IPCS.A1 s' = IPCS.A1 s) /\
  (IPCS.time_varying_bc s = true ->
   (0 < IPCS.dt s)%Q -> (IPCS.dt s <= Tf)%Q ->
   IPCS.bcu s' = IPCS.flow_bcu s /\
   IPCS.A1 s' = IPCS.assemble_A1 (IPCS.flow_bcu s) (IPCS.bc_values s)).
Proof.
  unfold IPCS.solve, IPCS.floordiv.
  destruct (Qeq_bool (IPCS.dt s) 0) eqn:Hz.
  - simpl. split; [done|]. intros _ Hdt _. apply Qeq_bool_iff in Hz.
    rewrite Hz in Hdt. by apply Qlt_irrefl in Hdt.
  - destruct (ipcs_steps_bcs (range (Qfloor (Tf / IPCS.dt s))) (IPCS.set_t 0 s))
      as (_ & _ & _ & Hfix & Hvar).
    split; [exact Hfix|]. intros Hv Hdt HTf. apply Hvar; [done|].
    assert (1 <= Qfloor (Tf / IPCS.dt s)) as Hn.
    { rewrite <- (Qfloor_Z 1). apply Qfloor_resp_le.
      apply Qle_shift_div_l; [done|]. by rewrite Qmult_1_l. }
    unfold range. destruct (Z.to_nat (Qfloor (Tf / IPCS.dt s))) eqn:E; [lia|done].
Qed.

(** X17. [solve(Tf)] with a step size of zero raises [ZeroDivisionError]
    before it touches the solver, the clock included. With a step size
    above zero and a final time below it, [solve] makes no step: it
    returns with the clock at 0 and everything else as it was. *)
Theorem ipcs_solve_without_steps (Tf : Q) s :
  ((IPCS.dt s == 0)%Q -> IPCS.solve Tf s = (Some IPCS.ZeroDivisionError, s)) /\
  ((0 < IPCS.dt s)%Q -> (Tf < IPCS.dt s)%Q ->
   IPCS.solve Tf s = (None, IPCS.set_t 0 s)).
Proof.
  unfold IPCS.solve, IPCS.floordiv. split.
  - intros Hz. apply Qeq_bool_iff in Hz. by rewrite Hz.
  - intros Hdt HTf.
    destruct (Qeq_bool (IPCS.dt s) 0) eqn:Hz.
    { apply Qeq_bool_iff in Hz. rewrite Hz in Hdt. by apply Qlt_irrefl in Hdt. }
    assert (Qfloor (Tf / IPCS.dt s) < 1) as Hn.
    { rewrite Zlt_Qlt. eapply Qle_lt_trans; [apply Qfloor_le|].
      apply Qlt_shift_div_r; [done|]. by rewrite Qmult_1_l. }
    unfold range. by replace (Z.to_nat _) with 0%nat by lia.
Qed.

End IPCSClaims.


Lemma ipcs_step_returns_witness :
  let s := IPCSBench.solver IPCSBench.never (1 # 10) 3 false in
  let s' := snd (IPCS.step 0 s) in
  IPCS.t s' = (IPCS.t s + IPCS.dt s)%Q /\
  IPCS.u_n s' = IPCS.u s' /\ IPCS.p_n s' = IPCS.p s' /\
  IPCS.calls s' = IPCS.calls s ++
    ((fun cb => IPCS.Called cb 0 (IPCS.t s') (IPCS.u s') (IPCS.p s'))
       <$> IPCS.callbacks s) /\
  IPCS.dt s' = IPCS.dt s /\ IPCS.callbacks s' = IPCS.callbacks s.
Proof.
  intros s s'.
  apply (@ipcs_step_returns (IPCSBench.scalar IPCSBench.never) nat 0 s s').
  reflexivity.
Defined.

Lemma ipcs_step_raises_witness :
  let s := IPCSBench.solver IPCSBench.negative (1 # 10) (-2) false in
  let s' := snd (IPCS.step 0 s) in
  IPCS.ConvergenceError = IPCS.ConvergenceError /\
  IPCS.t s' = (IPCS.t s + IPCS.dt s)%Q /\
  IPCS.u_n s' = IPCS.u_n s /\ IPCS.p_n s' = IPCS.p_n s /\
  IPCS.calls s' = IPCS.calls s.
Proof.
  intros s s'.
  apply (@ipcs_step_raises (IPCSBench.scalar IPCSBench.negative) nat 0 s
           IPCS.ConvergenceError s').
  reflexivity.
Defined.


Lemma ipcs_boundary_conditions_witness :
  let fixed := IPCSBench.solver IPCSBench.never (3 # 10) 3 false in
  let varying := IPCSBench.solver IPCSBench.never (3 # 10) 3 true in
  IPCS.bcu (snd (IPCS.solve 1 fixed)) = 1%nat /\
  IPCS.bcu (snd (IPCS.solve 1 varying)) = 2%nat.
Proof.
  intros fixed varying. split.
  - apply (proj1 (@ipcs_boundary_conditions (IPCSBench.scalar IPCSBench.never)
                    nat 1 fixed)). reflexivity.
  - apply (proj2 (@ipcs_boundary_conditions (IPCSBench.scalar IPCSBench.never)
                    nat 1 varying)).
    + reflexivity.
    + reflexivity.
    + discriminate.
Defined.

Lemma ipcs_solve_without_steps_witness :
  let s := IPCSBench.solver IPCSBench.never 0 3 false in
  let s1 := IPCSBench.solver IPCSBench.never (3 # 10) 3 false in
  IPCS.solve 1 s = (Some IPCS.ZeroDivisionError, s) /\
  IPCS.solve (1 # 10) s1 = (None, IPCS.set_t 0 s1).
Proof.
  intros s s1. split.
  - apply (proj1 (@ipcs_solve_without_steps (IPCSBench.scalar IPCSBench.never)
                    nat 1 s)). reflexivity.
  - apply (proj2 (@ipcs_solve_without_steps (IPCSBench.scalar IPCSBench.never)
                    nat (1 # 10) s1)); reflexivity.
Defined.
